(** * Cyber-Risk-Intelligence dashboard: derived metrics, sparklines,
      animators and the entity highlighter

    A shallow embedding of the algorithmic core of
    [frontend/app/dashboard/page.tsx] and the properties its specification
    states about it.

    Conventions of the embedding.
    - A JavaScript [number] is modelled by the rational ([Q]) it denotes,
      compared with [==]; numbers are finite.  The products that feed
      [Math.round] in the derived metrics are rounded to double precision
      as the source's are ([JS.mul], [JS.binary64]).  Where the source
      computes on 32-bit integers ([&], [>>>]) the value is a [Z] and the
      conversions [ToInt32]/[ToUint32] are written out; the generator's
      update is the integer one, which is what the source computes as long
      as the state is at most [2^32] in magnitude (every state after the
      first draw is), and the statements about it carry that bound.  The
      points of a sparkline, the coordinates of its drawing and the easing
      of the count-up are computed on the exact values; what is stated
      about them (signs, bounds by the target, the box of the drawing, the
      value an animation ends on) does not depend on the rounding.
    - A JavaScript string is a list of characters ([list ascii]): the code
      units 0 to 255, read as Latin-1.  Case mapping and the case folding
      of the regular expressions are those of these characters.  Object
      keys are [string]s.
    - A value read through [?.] or [??] in the source is an [option].
    - React hooks are state machines: the hook's state, the callbacks it has
      handed to the host (timers, animation frames) and the events the host
      can deliver. *)

From Stdlib Require Import ZArith QArith Qround Qminmax Qpower Qabs Lia Lqa Ascii String List Bool.
From stdpp Require Import gmap strings.
Import ListNotations.

Local Open Scope Z_scope.

(** ** JavaScript numbers *)

Module JS.

(** [ToInt32] and [ToUint32] of an integral number. *)
Definition toInt32 (x : Z) : Z := (x + 2 ^ 31) mod 2 ^ 32 - 2 ^ 31.
Definition toUint32 (x : Z) : Z := x mod 2 ^ 32.

(** [a & b]: both operands go through [ToInt32]. *)
Definition band (a b : Z) : Z := Z.land (toInt32 a) (toInt32 b).

(** [a >>> n]: [ToUint32] of the left operand, shift count modulo 32. *)
Definition ushr (a n : Z) : Z := Z.shiftr (toUint32 a) (n mod 32).

(** [Math.round]: nearest integer, halves towards plus infinity. *)
Definition Math_round (x : Q) : Z := Qfloor (x + (1 # 2)).

(** The exponent of the leading binary digit of a number other than 0:
    [2 ^ ilog2 x <= |x| < 2 ^ (ilog2 x + 1)]. *)
Definition ilog2 (x : Q) : Z :=
  let k := Z.log2 (Z.abs (Qnum x)) - Z.log2 (Zpos (Qden x)) in
  if Qle_bool (2 ^ k) (Qabs x) then k else k - 1.

(** The nearest integer, halves to the even one. *)
Definition round_half_even (x : Q) : Z :=
  let f := Qfloor x in
  match (x - inject_Z f ?= 1 # 2)%Q with
  | Lt => f
  | Gt => f + 1
  | Eq => if Z.even f then f else f + 1
  end.

(** The double-precision number nearest to [x] (round to nearest, ties to
    even): 53 significant binary digits, and no digit below [2 ^ -1074]. *)
Definition binary64 (x : Q) : Q :=
  if Qeq_bool x 0 then 0%Q
  else
    let u := Z.max (ilog2 x - 52) (-1074) in
    (inject_Z (round_half_even (x / 2 ^ u)) * 2 ^ u)%Q.

(** A numeric literal of the source, or a number of the JSON payload. *)
Definition number (x : Q) : Q := binary64 x.

(** [a * b] on numbers. *)
Definition mul (a b : Q) : Q := binary64 (a * b).

Definition Math_max (a b : Q) : Q := Qmax a b.
Definition Math_min (a b : Q) : Q := Qmin a b.

(** [a ?? b] *)
Definition nullish {A} (a : option A) (b : A) : A :=
  match a with Some x => x | None => b end.

(** [a <= b] on numbers. *)
Definition le (a b : Q) : bool := Qle_bool a b.

(** Strings: a sequence of characters, written as a literal with [str]. *)
Abbreviation jsstring := (list ascii).
Definition str (s : string) : jsstring := list_ascii_of_string s.

(** [String.prototype.toLowerCase], character by character: the letters
    [A] to [Z] and the Latin-1 capitals (192 to 222, but not the
    multiplication sign 215) move up by 32. *)
Definition lower_char (c : ascii) : ascii :=
  let n := N_of_ascii c in
  if (((65 <=? n) && (n <=? 90))
      || ((192 <=? n) && (n <=? 222) && negb (n =? 215)))%N
  then ascii_of_N (n + 32) else c.

Definition toLowerCase (s : jsstring) : jsstring := map lower_char s.

(** [s.startsWith(p)] and [s.includes(p)]. *)
Fixpoint startsWith (s p : jsstring) : bool :=
  match p, s with
  | [], _ => true
  | _ :: _, [] => false
  | a :: p', b :: s' => (if ascii_dec a b then true else false) && startsWith s' p'
  end.

Fixpoint includes (s p : jsstring) : bool :=
  startsWith s p ||
  match s with
  | [] => false
  | _ :: s' => includes s' p
  end.

(** The property names every object inherits from [Object.prototype]:
    [obj[key]] finds the inherited member under such a key when [obj] has
    no property of its own with that name. *)
Definition Object_prototype_has (key : string) : bool :=
  existsb (String.eqb key)
    ["constructor"; "hasOwnProperty"; "isPrototypeOf";
     "propertyIsEnumerable"; "toLocaleString"; "toString"; "valueOf";
     "__proto__"; "__defineGetter__"; "__defineSetter__";
     "__lookupGetter__"; "__lookupSetter__"]%string.

End JS.

Infix "??" := JS.nullish (at level 45, left associativity).

(** ** A state monad for closures that own a mutable variable *)

Definition State (S A : Type) : Type := S -> A * S.

Definition ret {S A} (a : A) : State S A := fun s => (a, s).

Definition bind {S A B} (m : State S A) (k : A -> State S B) : State S B :=
  fun s => let (a, s') := m s in k a s'.

Notation "'let*' x ':=' m 'in' k" := (bind m (fun x => k))
  (at level 10, x name, m at level 100, k at level 200).

(** [Array.from({ length: len }, (_, i) => f i)]: the callback runs for
    [i = 0 .. len-1], in that order. *)
Fixpoint Array_from_at {S A} (f : nat -> State S A) (len i : nat)
  : State S (list A) :=
  match len with
  | O => ret []
  | Datatypes.S len' =>
      let* x := f i in
      let* xs := Array_from_at f len' (Datatypes.S i) in
      ret (x :: xs)
  end.

Definition Array_from {S A} (len : nat) (f : nat -> State S A)
  : State S (list A) :=
  Array_from_at f len 0.

(** ** seededRand and makeSparkline *)

Module Sparkline.

(** [seededRand(seed)]: [let s = seed], the closure's private state.
    ([makeSparkline]'s parameter [seed] defaults to 42; every call in the
    component passes one, between 1 and 5.) *)
Definition seededRand (seed : Z) : Z := seed.

(** The closure returned by [seededRand]:
    [s = (s * 1664525 + 1013904223) & 0xffffffff;
     return (s >>> 0) / 0xffffffff].
    The product and the sum are those of the integers, which is what the
    source's double-precision arithmetic computes for a state of at most
    [2^32] in magnitude: a small seed, and every state after a draw. *)
Definition rand : State Z Q :=
  fun s =>
    let s' := JS.band (s * 1664525 + 1013904223) 0xffffffff in
    ((inject_Z (JS.ushr s' 0) / inject_Z 0xffffffff)%Q, s').

(** The state after one draw and the value of that draw. *)
Definition next_state (s : Z) : Z := snd (rand s).
Definition draw (s : Z) : Q := fst (rand s).

(** The unsigned reading of a state, [s >>> 0]. *)
Definition ustate (s : Z) : Z := JS.ushr s 0.

(** The [i]-th draw (0-indexed) of a generator created with [seed]. *)
Definition nth_draw (seed : Z) (i : nat) : Q :=
  draw (Nat.iter i next_state (seededRand seed)).

(** The body of the [Array.from] callback of [makeSparkline]. *)
Definition point (val : Q) (i : nat) : State Z Q :=
  let* r := rand in
  ret (JS.Math_max 0
         (val - (6 - inject_Z (Z.of_nat i)) * (val / 12) + r * 4)%Q).

(** [makeSparkline(val, seed)] together with the generator state it
    leaves behind. *)
Definition makeSparkline_run (val : Q) (seed : Z) : list Q * Z :=
  Array_from 7 (point val) (seededRand (seed + JS.Math_round val)).

Definition makeSparkline (val : Q) (seed : Z) : list Q :=
  fst (makeSparkline_run val seed).

(** The value the specification gives for point [i]. *)
Definition spec_point (val : Q) (seed : Z) (i : nat) : Q :=
  Qmax 0 (val - (6 - inject_Z (Z.of_nat i)) * (val / 12)
          + nth_draw (seed + JS.Math_round val) i * 4)%Q.

End Sparkline.

(** ** The Dashboard component: derived metrics and classification *)

Module Dashboard.

Import JS.

(** The analysis record as the component reads it.  Fields that the
    component reads through [?.] or [??] may be missing from the payload. *)
Record AnalysisData := {
  report_id : string;
  original_text : option jsstring;
  entities : option (list (string * list jsstring));
  overall_risk_score : option Q;
  risk_percentile : option Q;
  confidence_score : option Q;
  feature_contributions : option (gmap string Q);
  sentiment_score : option Q  (* behavioral_analysis?.sentiment?.score *)
}.

(** The component state the derived values depend on:
    [text], [data] and [execMode]. *)
Record state := {
  text : jsstring;
  data : option AnalysisData;
  execMode : bool
}.

(** [const score = data?.overall_risk_score ?? 0] *)
Definition score (st : state) : Q :=
  (data st ≫= overall_risk_score) ?? 0%Q.

(** [execMode ? Math.min(Math.round(score * 1.2), 100) : score] *)
Definition effectiveScore (st : state) : Q :=
  if execMode st
  then Math_min (inject_Z (Math_round (mul (score st) (number (12 # 10))))) 100
  else score st.

(** [data ? Math.round((data.confidence_score ?? 0) * 100) : 0] *)
Definition confidence (st : state) : Q :=
  match data st with
  | Some d => inject_Z (Math_round (mul (confidence_score d ?? 0%Q) 100))
  | None => 0
  end.

(** [data?.risk_percentile ?? 0] *)
Definition percentile (st : state) : Q :=
  (data st ≫= risk_percentile) ?? 0%Q.

Definition color_low : string := "#4ade80".
Definition color_moderate : string := "#facc15".
Definition color_high : string := "#fb923c".
Definition color_critical : string := "#f87171".

(** [getRiskColor(s = effectiveScore)]; [None] is a call without argument. *)
Definition getRiskColor (st : state) (arg : option Q) : string :=
  let s := arg ?? effectiveScore st in
  if execMode st then color_critical
  else if le s 30 then color_low
  else if le s 60 then color_moderate
  else if le s 80 then color_high
  else color_critical.

(** [getRiskLabel(s = effectiveScore)] *)
Definition getRiskLabel (st : state) (arg : option Q) : string :=
  let s := arg ?? effectiveScore st in
  if le s 30 then "Low Risk"
  else if le s 60 then "Moderate Risk"
  else if le s 80 then "High Risk"
  else "Critical Risk".

(** [data?.feature_contributions?.KEY ?? 0] *)
Definition feature (st : state) (key : string) : Q :=
  ((data st ≫= feature_contributions) ≫= (fun fc : gmap string Q => fc !! key)) ?? 0%Q.

Definition identityIdx (st : state) : Q := feature st "PERSON".
Definition locationIdx (st : state) : Q := feature st "GPE".
Definition corpIdx (st : state) : Q := feature st "ORG".

(** [Math.round((data?.behavioral_analysis?.sentiment?.score ?? 0) * 100)] *)
Definition emoIdx (st : state) : Q :=
  inject_Z (Math_round (mul ((data st ≫= sentiment_score) ?? 0%Q) 100)).

(** [(data?.original_text ?? text).toLowerCase().includes("family") ? 73 : 0] *)
Definition familyIdx (st : state) : Q :=
  if includes (toLowerCase ((data st ≫= original_text) ?? text st)) (str "family")
  then 73 else 0.

End Dashboard.

(** ** Regular expressions

    The fragment of ECMAScript regular expressions (without the [u] flag)
    that the component relies on: pattern characters, [.], identity escapes,
    capturing groups, alternation, the quantifiers [*], [+] and [?], the
    assertions [^] and [$], and character classes without ranges.  The
    constructor answers [SyntaxError] where the engine throws, and
    [Unsupported] for syntax outside this fragment (ranges, braces, lazy
    quantifiers, group specifiers, alphanumeric escapes, other flags). *)

Module RegExp.

Import JS.

Local Open Scope char_scope.
Local Open Scope nat_scope.

Inductive result (A : Type) : Type :=
| Ok (a : A)
| SyntaxError
| Unsupported.

Arguments Ok {A} a.
Arguments SyntaxError {A}.
Arguments Unsupported {A}.

Definition rbind {A B} (m : result A) (k : A -> result B) : result B :=
  match m with
  | Ok a => k a
  | SyntaxError => SyntaxError
  | Unsupported => Unsupported
  end.

Notation "'try' x ':=' m 'in' k" := (rbind m (fun x => k))
  (at level 10, x name, m at level 100, k at level 200).

Inductive regex : Type :=
| Empty
| Char (c : ascii)
| Any
| Class (negated : bool) (members : list ascii)
| Bol
| Eol
| Seq (r1 r2 : regex)
| Alt (r1 r2 : regex)
| Quant (min : nat) (max : option nat) (r : regex)
| Group (n : nat) (r : regex).

(** *** The pattern parser, one character at a time *)

Inductive last_term : Type := NoTerm | Atom | Quantified | Assertion.

(** A disjunction under construction: the group it belongs to (0 for the
    whole pattern), the alternatives already closed and the terms of the
    current alternative, both most recent first. *)
Record frame : Type := {
  f_group : nat;
  f_alts : list regex;
  f_terms : list regex;
  f_last : last_term
}.

Inductive mode : Type :=
| Normal
| Escape
| AfterOpen
| ClassStart
| ClassBody (negated : bool) (members : list ascii)
| ClassDash (negated : bool) (members : list ascii)
| ClassEscape (negated : bool) (members : list ascii).

Record parser : Type := {
  p_mode : mode;
  p_top : frame;
  p_stack : list frame;
  p_groups : nat
}.

Definition new_frame (g : nat) : frame :=
  {| f_group := g; f_alts := []; f_terms := []; f_last := NoTerm |}.

Definition initial : parser :=
  {| p_mode := Normal; p_top := new_frame 0; p_stack := []; p_groups := 0 |}.

Definition mk_seq (terms : list regex) : regex :=
  fold_left (fun acc t => Seq t acc) terms Empty.

Definition mk_alt (alts : list regex) (last : regex) : regex :=
  fold_left (fun acc a => Alt a acc) alts last.

Definition close_frame (f : frame) : regex :=
  mk_alt (f_alts f) (mk_seq (f_terms f)).

Definition add_term (t : regex) (kind : last_term) (f : frame) : frame :=
  {| f_group := f_group f; f_alts := f_alts f;
     f_terms := t :: f_terms f; f_last := kind |}.

Definition set_mode (m : mode) (p : parser) : parser :=
  {| p_mode := m; p_top := p_top p; p_stack := p_stack p;
     p_groups := p_groups p |}.

Definition push_term (t : regex) (kind : last_term) (p : parser) : parser :=
  {| p_mode := Normal; p_top := add_term t kind (p_top p);
     p_stack := p_stack p; p_groups := p_groups p |}.

(** A quantifier applies to the atom just read; anything else is
    "nothing to repeat". *)
Definition quantify (min : nat) (max : option nat) (p : parser) : result parser :=
  match f_last (p_top p), f_terms (p_top p) with
  | Atom, t :: ts =>
      Ok {| p_mode := Normal;
            p_top := {| f_group := f_group (p_top p);
                        f_alts := f_alts (p_top p);
                        f_terms := Quant min max t :: ts;
                        f_last := Quantified |};
            p_stack := p_stack p; p_groups := p_groups p |}
  | _, _ => SyntaxError
  end.

Definition is_digit (c : ascii) : bool :=
  let n := nat_of_ascii c in (48 <=? n) && (n <=? 57).

Definition is_alnum (c : ascii) : bool :=
  let n := nat_of_ascii c in
  ((48 <=? n) && (n <=? 57)) || ((65 <=? n) && (n <=? 90))
  || ((97 <=? n) && (n <=? 122)).

Definition normal_step (p : parser) (c : ascii) : result parser :=
  if (c =? "\")%char then Ok (set_mode Escape p)
  else if (c =? "(")%char then
    Ok {| p_mode := AfterOpen; p_top := new_frame (S (p_groups p));
          p_stack := p_top p :: p_stack p; p_groups := S (p_groups p) |}
  else if (c =? ")")%char then
    match p_stack p with
    | [] => SyntaxError
    | parent :: stack =>
        Ok {| p_mode := Normal;
              p_top := add_term (Group (f_group (p_top p))
                                       (close_frame (p_top p))) Atom parent;
              p_stack := stack; p_groups := p_groups p |}
    end
  else if (c =? "|")%char then
    Ok {| p_mode := Normal;
          p_top := {| f_group := f_group (p_top p);
                      f_alts := mk_seq (f_terms (p_top p)) :: f_alts (p_top p);
                      f_terms := []; f_last := NoTerm |};
          p_stack := p_stack p; p_groups := p_groups p |}
  else if (c =? "*")%char then quantify 0 None p
  else if (c =? "+")%char then quantify 1 None p
  else if (c =? "?")%char then
    match f_last (p_top p) with
    | Quantified => Unsupported
    | _ => quantify 0 (Some 1) p
    end
  else if (c =? ".")%char then Ok (push_term Any Atom p)
  else if (c =? "^")%char then Ok (push_term Bol Assertion p)
  else if (c =? "$")%char then Ok (push_term Eol Assertion p)
  else if (c =? "[")%char then Ok (set_mode ClassStart p)
  else if (c =? "{")%char then Unsupported
  else Ok (push_term (Char c) Atom p).

Definition class_step (neg : bool) (ms : list ascii) (p : parser) (c : ascii)
  : result parser :=
  if (c =? "]")%char then Ok (push_term (Class neg ms) Atom p)
  else if (c =? "\")%char then Ok (set_mode (ClassEscape neg ms) p)
  else if (c =? "-")%char then
    match ms with
    | [] => Ok (set_mode (ClassBody neg ["-"]) p)
    | _ :: _ => Ok (set_mode (ClassDash neg ms) p)
    end
  else Ok (set_mode (ClassBody neg (c :: ms)) p).

Definition step (p : parser) (c : ascii) : result parser :=
  match p_mode p with
  | Normal => normal_step p c
  | AfterOpen => if (c =? "?")%char then Unsupported else normal_step p c
  | Escape => if is_alnum c then Unsupported else Ok (push_term (Char c) Atom p)
  | ClassStart =>
      if (c =? "^")%char then Ok (set_mode (ClassBody true []) p)
      else class_step false [] p c
  | ClassBody neg ms => class_step neg ms p c
  | ClassDash neg ms =>
      if (c =? "]")%char then Ok (push_term (Class neg ("-" :: ms)) Atom p)
      else Unsupported
  | ClassEscape neg ms =>
      if is_alnum c then Unsupported
      else Ok (set_mode (ClassBody neg (c :: ms)) p)
  end.

Fixpoint feed (p : parser) (cs : jsstring) : result parser :=
  match cs with
  | [] => Ok p
  | c :: cs' => try p' := step p c in feed p' cs'
  end.

(** At the end of the pattern every group, class and escape must be
    complete. *)
Definition finish (p : parser) : result regex :=
  match p_mode p, p_stack p with
  | Normal, [] => Ok (close_frame (p_top p))
  | AfterOpen, [] => Ok (close_frame (p_top p))
  | _, _ => SyntaxError
  end.

Definition compile (pattern : jsstring) : result (regex * nat) :=
  try p := feed initial pattern in
  try r := finish p in
  Ok (r, p_groups p).

Record flags : Type := { global : bool; ignoreCase : bool }.

Fixpoint parse_flags (fs : jsstring) (acc : flags) : result flags :=
  match fs with
  | [] => Ok acc
  | c :: fs' =>
      if (c =? "g")%char then
        if global acc then SyntaxError
        else parse_flags fs' {| global := true; ignoreCase := ignoreCase acc |}
      else if (c =? "i")%char then
        if ignoreCase acc then SyntaxError
        else parse_flags fs' {| global := global acc; ignoreCase := true |}
      else if existsb (Ascii.eqb c) (str "dmsuvy") then Unsupported
      else SyntaxError
  end.

Record RegExp : Type := {
  re_ast : regex;
  re_groups : nat;
  re_flags : flags
}.

(** [new RegExp(pattern, flags)] *)
Definition RegExp_new (pattern fs : jsstring) : result RegExp :=
  try f := parse_flags fs {| global := false; ignoreCase := false |} in
  try c := compile pattern in
  Ok {| re_ast := fst c; re_groups := snd c; re_flags := f |}.

(** *** The backtracking matcher *)

Record mstate : Type := {
  m_idx : nat;                    (* position in the input *)
  m_rest : jsstring;              (* the input from that position on *)
  m_caps : gmap nat jsstring      (* the captures made so far *)
}.

(** The code unit of the upper case of a character, where that is a
    single code unit: the letters [a] to [z] and the Latin-1 small letters
    (224 to 254, but not the division sign 247) move down by 32, the micro
    sign (181) goes to the Greek capital mu and the y with diaeresis (255)
    to its capital, both outside Latin-1; the sharp s (223), whose upper
    case is two letters, and every other character stay. *)
Definition upper_code (c : ascii) : N :=
  let n := N_of_ascii c in
  (if ((97 <=? n) && (n <=? 122))
      || ((224 <=? n) && (n <=? 254) && negb (n =? 247))
   then n - 32
   else if n =? 181 then 924
   else if n =? 255 then 376
   else n)%N.

(** [Canonicalize]: with the [i] flag characters compare by upper case. *)
Definition canon (ic : bool) (c : ascii) : N :=
  if ic then upper_code c else N_of_ascii c.

Definition same_char (ic : bool) (a b : ascii) : bool :=
  (canon ic a =? canon ic b)%N.

Definition is_line_terminator (c : ascii) : bool :=
  (c =? "010")%char || (c =? "013")%char.

Definition advance (st : mstate) : mstate :=
  {| m_idx := S (m_idx st); m_rest := tail (m_rest st); m_caps := m_caps st |}.

Definition set_capture (n : nat) (from to : mstate) : mstate :=
  {| m_idx := m_idx to; m_rest := m_rest to;
     m_caps := <[n := take (m_idx to - m_idx from) (m_rest from)]> (m_caps to) |}.

Fixpoint groups_in (r : regex) : list nat :=
  match r with
  | Seq r1 r2 | Alt r1 r2 => groups_in r1 ++ groups_in r2
  | Quant _ _ r' => groups_in r'
  | Group n r' => n :: groups_in r'
  | _ => []
  end.

Definition clear_captures (gs : list nat) (st : mstate) : mstate :=
  {| m_idx := m_idx st; m_rest := m_rest st;
     m_caps := fold_right (fun g caps => delete g caps) (m_caps st) gs |}.

Definition orelse {A} (a : option A) (b : option A) : option A :=
  match a with Some _ => a | None => b end.

(** [matcher ic r st k]: match [r] at [st] and hand the end state to the
    continuation [k]; alternatives and quantifiers backtrack when [k]
    fails.  A quantifier's iteration that is optional and consumes nothing
    is rejected, so the input length bounds the number of iterations. *)
Fixpoint matcher (ic : bool) (r : regex) (st : mstate)
    (k : mstate -> option mstate) : option mstate :=
  match r with
  | Empty => k st
  | Char c =>
      match m_rest st with
      | d :: _ => if same_char ic c d then k (advance st) else None
      | [] => None
      end
  | Any =>
      match m_rest st with
      | d :: _ => if is_line_terminator d then None else k (advance st)
      | [] => None
      end
  | Class neg ms =>
      match m_rest st with
      | d :: _ =>
          if xorb neg (existsb (fun m => same_char ic m d) ms)
          then k (advance st) else None
      | [] => None
      end
  | Bol => if m_idx st =? 0 then k st else None
  | Eol => match m_rest st with [] => k st | _ :: _ => None end
  | Seq r1 r2 => matcher ic r1 st (fun st' => matcher ic r2 st' k)
  | Alt r1 r2 => orelse (matcher ic r1 st k) (matcher ic r2 st k)
  | Group n r' => matcher ic r' st (fun st' => k (set_capture n st st'))
  | Quant min max r' =>
      (fix rep (fuel min : nat) (max : option nat) (x : mstate) {struct fuel}
         : option mstate :=
         match fuel with
         | O => None
         | S fuel' =>
             match max with
             | Some O => k x
             | _ =>
                 let d := fun y : mstate =>
                   if (min =? 0) && (m_idx y =? m_idx x) then None
                   else rep fuel' (pred min) (option_map pred max) y in
                 let xr := clear_captures (groups_in r') x in
                 if min =? 0
                 then orelse (matcher ic r' xr d) (k x)
                 else matcher ic r' xr d
             end
         end) (min + length (m_rest st) + 2) min max st
  end.

Record match_result : Type := {
  mr_index : nat;
  mr_text : jsstring;
  mr_caps : gmap nat jsstring
}.

(** One attempt of the matcher at position [idx]. *)
Definition match_at (re : RegExp) (idx : nat) (rest : jsstring)
  : option match_result :=
  match matcher (ignoreCase (re_flags re)) (re_ast re)
          {| m_idx := idx; m_rest := rest; m_caps := ∅ |} Some with
  | Some e => Some {| mr_index := idx;
                      mr_text := take (m_idx e - idx) rest;
                      mr_caps := m_caps e |}
  | None => None
  end.

(** *** String.prototype.replace with a regular expression *)

Definition digit_value (c : ascii) : nat := nat_of_ascii c - 48.

Definition capture (m : match_result) (n : nat) : jsstring :=
  default [] (mr_caps m !! n).

(** [GetSubstitution]: the replacement text for one match. *)
Fixpoint expand (groups : nat) (input : jsstring) (m : match_result)
    (tpl : jsstring) : jsstring :=
  match tpl with
  | [] => []
  | c :: t =>
      if negb (c =? "$")%char then c :: expand groups input m t
      else
        match t with
        | [] => [c]
        | d :: t' =>
            let one_digit :=
              let n := digit_value d in
              if (1 <=? n) && (n <=? groups)
              then capture m n ++ expand groups input m t'
              else c :: d :: expand groups input m t' in
            if (d =? "$")%char then "$" :: expand groups input m t'
            else if (d =? "&")%char then mr_text m ++ expand groups input m t'
            else if (d =? "`")%char then
              take (mr_index m) input ++ expand groups input m t'
            else if (d =? "'")%char then
              drop (mr_index m + length (mr_text m)) input
              ++ expand groups input m t'
            else if is_digit d then
              match t' with
              | d2 :: t'' =>
                  let nn := 10 * digit_value d + digit_value d2 in
                  if is_digit d2 && (1 <=? nn) && (nn <=? groups)
                  then capture m nn ++ expand groups input m t''
                  else one_digit
              | [] => one_digit
              end
            else c :: expand groups input m t
        end
  end.

(** The scan of [input.replace(re, tpl)]: [idx] is the current position,
    [rest] the input from there, [skip] the number of characters still
    covered by the last match, [active] whether another match is looked
    for (always with the [g] flag, only until the first match without). *)
Fixpoint replace_scan (re : RegExp) (tpl input : jsstring) (idx : nat)
    (rest : jsstring) (skip : nat) (active : bool) : jsstring :=
  match skip with
  | S skip' =>
      match rest with
      | [] => []
      | _ :: rest' => replace_scan re tpl input (S idx) rest' skip' active
      end
  | O =>
      match (if active then match_at re idx rest else None) with
      | Some m =>
          expand (re_groups re) input m tpl ++
          match rest with
          | [] => []
          | c :: rest' =>
              match length (mr_text m) with
              | O => c :: replace_scan re tpl input (S idx) rest' 0
                                        (global (re_flags re))
              | S n => replace_scan re tpl input (S idx) rest' n
                                    (global (re_flags re))
              end
          end
      | None =>
          match rest with
          | [] => []
          | c :: rest' => c :: replace_scan re tpl input (S idx) rest' 0 active
          end
      end
  end.

(** [input.replace(re, tpl)] *)
Definition replace (input : jsstring) (re : RegExp) (tpl : jsstring) : jsstring :=
  replace_scan re tpl input 0 input 0 true.

End RegExp.

(** ** highlightText *)

Module Highlighter.

Import JS RegExp Dashboard.

Local Open Scope char_scope.
Local Open Scope nat_scope.

(** [colorMap], by entity type. *)
Definition colorMap : gmap string jsstring :=
  <["GPE"%string := str "#f97316"]>
    (<["PERSON"%string := str "#60a5fa"]>
       (<["ORG"%string := str "#22d3ee"]>
          (<["DATE"%string := str "#a78bfa"]> ∅))).

(** [colorMap[label] || "#a78bfa"], for a label that is not the name of a
    member of [Object.prototype] ([JS.Object_prototype_has]): under such a
    label the lookup finds the inherited member instead, and the colour is
    the text the engine prints for it. *)
Definition color_of (label : string) : jsstring :=
  default (str "#a78bfa") (colorMap !! label).

Definition dquote : ascii := "034".

(** The opening tag of an entity span, up to and including [>]. *)
Definition entity_open (color : jsstring) : jsstring :=
  str "<span style=" ++ [dquote] ++ str "background:" ++ color
  ++ str "30;color:" ++ color ++ str ";border:1px solid " ++ color
  ++ str "60;border-radius:4px;padding:0 3px;font-weight:600;"
  ++ [dquote] ++ str ">".

(** The replacement template of an entity pass. *)
Definition entity_template (color : jsstring) : jsstring :=
  entity_open color ++ str "$1</span>".

Definition family_open : jsstring :=
  str "<span style=" ++ [dquote]
  ++ str "background:#f8717140;color:#f87171;border:1px solid #f8717160;border-radius:4px;padding:0 3px;font-weight:600;"
  ++ [dquote] ++ str ">".

(** The replacement template of the final "family" pass. *)
Definition family_template : jsstring := family_open ++ str "$1</span>".

(** The pattern of the escaping pass, [/[-/\\^$*+?.()|[\]{}]/g], and its
    replacement ["\\$&"]. *)
Definition escape_pattern : jsstring := str "[-/\\^$*+?.()|[\]{}]".
Definition escape_template : jsstring := str "\$&".

(** [l.forEach(f)] where [f] updates the variable [html] and may throw. *)
Fixpoint forEach {A} (f : jsstring -> A -> result jsstring) (l : list A)
    (html : jsstring) : result jsstring :=
  match l with
  | [] => Ok html
  | x :: l' => try html' := f html x in forEach f l' html'
  end.

(** The body of [vals.forEach((v) => ...)]. *)
Definition highlight_value (label : string) (html v : jsstring)
  : result jsstring :=
  let color := color_of label in
  try meta := RegExp_new escape_pattern (str "g") in
  let esc := replace v meta escape_template in
  try regex := RegExp_new (str "(" ++ esc ++ str ")") (str "gi") in
  Ok (replace html regex (entity_template color)).

(** The body of [Object.entries(data.entities).forEach(([label, vals]) => ...)]. *)
Definition highlight_entry (html : jsstring) (entry : string * list jsstring)
  : result jsstring :=
  forEach (highlight_value (fst entry)) (snd entry) html.

(** [highlightText(raw)] *)
Definition highlightText (st : state) (raw : jsstring) : result jsstring :=
  match data st ≫= entities with
  | None => Ok raw
  | Some ents =>
      try html := forEach highlight_entry ents raw in
      try family := RegExp_new (str "(family)") (str "gi") in
      Ok (replace html family family_template)
  end.

End Highlighter.

(** ** Reference definitions

    What the specification says, to compare the code with.  A highlighting
    pass is written without regular expressions: the string is cut, from
    left to right, into plain characters and case-insensitive occurrences
    of the literal value, and each occurrence is wrapped. *)

Module Reference.

Import JS RegExp Dashboard Highlighter.

Local Open Scope nat_scope.

(** The escaped form of a literal: a backslash before every character of
    the set [- / \ ^ $ * + ? . ( ) | [ ] { }]. *)
Definition is_meta (c : ascii) : bool :=
  existsb (Ascii.eqb c) (str "-/\^$*+?.()|[]{}").

Definition escaped (v : jsstring) : jsstring :=
  flat_map (fun c => if is_meta c then ["\"%char; c] else [c]) v.

(** [v] is, up to case, a prefix of [s]. *)
Fixpoint ci_prefix (v s : jsstring) : bool :=
  match v, s with
  | [], _ => true
  | _ :: _, [] => false
  | a :: v', b :: s' => same_char true a b && ci_prefix v' s'
  end.

(** The parser modes in which a pattern character starts a new term. *)
Definition literal_mode (m : mode) : Prop := m = Normal \/ m = AfterOpen.

(** The sequence of the characters of [v], as the parser builds it. *)
Definition literal (v : jsstring) : regex :=
  fold_right (fun c r => Seq (Char c) r) Empty v.

(** The matcher state [n] characters further on. *)
Definition shift (n : nat) (st : mstate) : mstate :=
  {| m_idx := n + m_idx st; m_rest := drop n (m_rest st);
     m_caps := m_caps st |}.

(** The compiled form of [new RegExp("(" + escaped v + ")", "gi")]. *)
Definition literal_regexp (v : jsstring) : RegExp :=
  {| re_ast := Seq (Group 1 (literal v)) Empty;
     re_groups := 1;
     re_flags := {| global := true; ignoreCase := true |} |}.

(** No character of [s] is a dollar sign. *)
Definition no_dollar (s : jsstring) : bool :=
  forallb (fun c => negb (c =? "$")%char) s.

Inductive segment : Type :=
| Plain (c : ascii)
| Hit (w : jsstring).

(** The leftmost, non-overlapping occurrences of [v] in [rest]; [skip]
    counts the characters still covered by the previous occurrence. *)
Fixpoint occurrences (v rest : jsstring) (skip : nat) : list segment :=
  match skip with
  | S skip' =>
      match rest with
      | [] => []
      | _ :: rest' => occurrences v rest' skip'
      end
  | O =>
      if ci_prefix v rest then
        Hit (take (length v) rest) ::
        match rest with
        | [] => []
        | c :: rest' =>
            match length v with
            | O => Plain c :: occurrences v rest' 0
            | S n => occurrences v rest' n
            end
        end
      else
        match rest with
        | [] => []
        | c :: rest' => Plain c :: occurrences v rest' 0
        end
  end.

Definition render (wrap : jsstring -> jsstring) (segs : list segment) : jsstring :=
  flat_map (fun s => match s with Plain c => [c] | Hit w => wrap w end) segs.

(** The text the segments were cut from. *)
Definition erase (segs : list segment) : jsstring :=
  render (fun w => w) segs.

Definition is_plain (s : segment) : Prop :=
  match s with Plain _ => True | Hit _ => False end.

(** Wrap every occurrence of [v] in [html]. *)
Definition wrap_all (wrap : jsstring -> jsstring) (v html : jsstring) : jsstring :=
  render wrap (occurrences v html 0).

(** A span element with a style attribute around [w]. *)
Definition span (style w : jsstring) : jsstring :=
  str "<span style=" ++ ["034"%char] ++ style ++ ["034"%char] ++ str ">"
  ++ w ++ str "</span>".

(** The style of an entity span: it carries the colour of the type, as
    background (with alpha 30), text colour and border (with alpha 60). *)
Definition entity_style (color : jsstring) : jsstring :=
  str "background:" ++ color ++ str "30;color:" ++ color
  ++ str ";border:1px solid " ++ color
  ++ str "60;border-radius:4px;padding:0 3px;font-weight:600;".

Definition entity_wrap (color w : jsstring) : jsstring :=
  span (entity_style color) w.

(** The alert style of the word "family". *)
Definition family_style : jsstring :=
  str "background:#f8717140;color:#f87171;border:1px solid #f8717160;border-radius:4px;padding:0 3px;font-weight:600;".

Definition family_wrap (w : jsstring) : jsstring :=
  span family_style w.

(** The entity passes, in the order of the entries and of their values. *)
Definition entity_passes (ents : list (string * list jsstring)) (raw : jsstring)
  : jsstring :=
  fold_left
    (fun html entry =>
       fold_left (fun html v => wrap_all (entity_wrap (color_of (fst entry))) v html)
                 (snd entry) html)
    ents raw.

(** A case-insensitive occurrence of [w] in [s]: a substring of [s] that
    lower-cases to the lower-cased [w]. *)
Definition occurs_ci (w s : jsstring) : Prop :=
  exists pre mid suf,
    s = pre ++ mid ++ suf /\ toLowerCase mid = toLowerCase w.

(** The colour of the band a score falls in. *)
Definition band_color (s : Q) : string :=
  if JS.le s 30 then color_low
  else if JS.le s 60 then color_moderate
  else if JS.le s 80 then color_high
  else color_critical.

End Reference.

(** ** useCountUp

    One instance of the hook: the displayed value and the callbacks it has
    registered with [requestAnimationFrame] and that have not run yet.  The
    host delivers two kinds of event: the effect runs (on mount and when
    [target] or [trigger] changes) and an animation frame fires. *)

Module CountUp.

Import JS.

(** The closure [step] one run of the effect creates: the [target] it
    captured and its own variable [start]. *)
Record chain : Type := {
  c_target : Q;
  c_start : option Q
}.

Record hook : Type := {
  current : Z;
  duration : Q;
  frames : list chain
}.

(** First render: [useState(0)], nothing scheduled. *)
Definition mount (duration : Q) : hook :=
  {| current := 0; duration := duration; frames := [] |}.

Definition requestAnimationFrame (c : chain) (h : hook) : hook :=
  {| current := current h; duration := duration h;
     frames := frames h ++ [c] |}.

Definition setCurrent (v : Z) (h : hook) : hook :=
  {| current := v; duration := duration h; frames := frames h |}.

(** The body of the effect: [if (!trigger) return; let start = null; ...;
    requestAnimationFrame(step)].  It returns no cleanup function. *)
Definition effect (target : Q) (trigger : bool) (h : hook) : hook :=
  if negb trigger then h
  else requestAnimationFrame {| c_target := target; c_start := None |} h.

(** [!start] for [start: number | null] *)
Definition falsy (start : option Q) : bool :=
  match start with
  | None => true
  | Some s => Qeq_bool s 0
  end.

(** [step(ts)] *)
Definition step (ts : Q) (c : chain) (h : hook) : hook :=
  let initial := 0%Q in
  let start := if falsy (c_start c) then ts else c_start c ?? ts in
  let progress := Math_min ((ts - start) / duration h) 1 in
  let eased := (1 - (1 - progress) ^ 3)%Q in
  let h' :=
    setCurrent (Math_round (initial + (c_target c - initial) * eased)) h in
  if negb (le 1 progress)
  then requestAnimationFrame {| c_target := c_target c; c_start := Some start |} h'
  else h'.

(** An animation frame at time [ts]: the callbacks registered so far run in
    registration order; what they register waits for the next frame. *)
Definition frame (ts : Q) (h : hook) : hook :=
  fold_left (fun h c => step ts c h) (frames h)
            {| current := current h; duration := duration h; frames := [] |}.

Inductive event : Type :=
| Effect (target : Q) (trigger : bool)
| Frame (ts : Q).

Definition handle (h : hook) (e : event) : hook :=
  match e with
  | Effect target trigger => effect target trigger h
  | Frame ts => frame ts h
  end.

Definition run (events : list event) (h : hook) : hook :=
  fold_left handle events h.

(** The number of schedules the instance has in flight. *)
Definition active_schedules (h : hook) : nat := length (frames h).

End CountUp.

(** ** useTypewriter

    One instance of the hook: the displayed text, the intervals it has set
    and that are still running (by id, with the [text] and the counter [i]
    their callback closes over), and the interval the effect's cleanup will
    clear. *)

Module Typewriter.

Import JS.

Local Open Scope nat_scope.

Record timer : Type := {
  t_text : jsstring;
  t_i : nat
}.

Record hook : Type := {
  displayed : jsstring;
  timers : gmap nat timer;
  cleanup : option nat;
  next_id : nat
}.

(** First render: the displayed text starts empty. *)
Definition mount : hook :=
  {| displayed := []; timers := ∅; cleanup := None; next_id := 1 |}.

Definition clearInterval (id : nat) (h : hook) : hook :=
  {| displayed := displayed h; timers := delete id (timers h);
     cleanup := cleanup h; next_id := next_id h |}.

(** The cleanup the previous run of the effect returned, if any:
    [() => clearInterval(id)]. *)
Definition run_cleanup (h : hook) : hook :=
  match cleanup h with
  | Some id =>
      {| displayed := displayed h; timers := delete id (timers h);
         cleanup := None; next_id := next_id h |}
  | None => h
  end.

(** [!text] *)
Definition empty (text : jsstring) : bool :=
  match text with [] => true | _ :: _ => false end.

(** The body of the effect. *)
Definition effect (text : jsstring) (trigger : bool) (h : hook) : hook :=
  if negb trigger || empty text then h
  else
    {| displayed := [];
       timers := <[next_id h := {| t_text := text; t_i := 0 |}]> (timers h);
       cleanup := Some (next_id h);
       next_id := S (next_id h) |}.

(** [text] or [trigger] changed: React runs the previous cleanup, then the
    effect. *)
Definition rerender (text : jsstring) (trigger : bool) (h : hook) : hook :=
  effect text trigger (run_cleanup h).

(** The interval callback of timer [id], if that interval is still set:
    [i++; setDisplayed(text.slice(0, i)); if (i >= text.length) clearInterval(id)]. *)
Definition tick (id : nat) (h : hook) : hook :=
  match timers h !! id with
  | None => h
  | Some t =>
      let i := S (t_i t) in
      {| displayed := take i (t_text t);
         timers := if length (t_text t) <=? i
                   then delete id (timers h)
                   else <[id := {| t_text := t_text t; t_i := i |}]> (timers h);
         cleanup := cleanup h;
         next_id := next_id h |}
  end.

Inductive event : Type :=
| Render (text : jsstring) (trigger : bool)
| Tick (id : nat)
| Unmount.

Definition handle (h : hook) (e : event) : hook :=
  match e with
  | Render text trigger => rerender text trigger h
  | Tick id => tick id h
  | Unmount => run_cleanup h
  end.

Definition run (events : list event) (h : hook) : hook :=
  fold_left handle events h.

(** The states an instance can be in. *)
Inductive reachable : hook -> Prop :=
| reachable_mount : reachable mount
| reachable_step (h : hook) (e : event) :
    reachable h -> reachable (handle h e).

(** The number of ticks of timer [id] among [ids]. *)
Definition ticks_of (id : nat) (ids : list nat) : nat :=
  count_occ Nat.eq_dec ids id.

(** Every interval of the instance that is still set is the one its
    cleanup will clear, and ids are fresh. *)
Definition owned (h : hook) : Prop :=
  (forall id t, timers h !! id = Some t -> cleanup h = Some id)
  /\ (forall id, cleanup h = Some id -> id < next_id h).

(** The state of a reveal of [text] by timer [id] after [c] of its ticks. *)
Definition revealing (id : nat) (text : jsstring) (c : nat) (h : hook) : Prop :=
  displayed h = take c text
  /\ timers h = if c <? length text
                then {[ id := {| t_text := text; t_i := c |} ]}
                else ∅.

(** A reveal of "old text" interrupted after two ticks. *)
Definition interrupted : hook :=
  run [Render (str "old text") true; Tick 1; Tick 1] mount.

End Typewriter.

(** ** Scenarios *)

Module Scenarios.

Import JS Dashboard.

(** The end-to-end scenario of the specification: contributions
    [{PERSON: 12, GPE: 20, ORG: 5}], sentiment score 0.3 and a text that
    mentions "family". *)
Definition scenario_contributions : gmap string Q :=
  <["PERSON"%string := 12%Q]>
    (<["GPE"%string := 20%Q]> (<["ORG"%string := 5%Q]> ∅)).

Definition scenario_record : AnalysisData := {|
  report_id := "r-1";
  original_text := Some (str "Dinner with my Family in Berlin");
  entities := Some [];
  overall_risk_score := Some 50%Q;
  risk_percentile := Some 40%Q;
  confidence_score := Some (number (9 # 10));
  feature_contributions := Some scenario_contributions;
  sentiment_score := Some (number (3 # 10))
|}.

Definition scenario_state : state :=
  {| text := []; data := Some scenario_record; execMode := true |}.

(** A record that carries nothing but a sentiment score. *)
Definition sentiment_record (x : Q) : AnalysisData := {|
  report_id := "r-4";
  original_text := None;
  entities := None;
  overall_risk_score := None;
  risk_percentile := None;
  confidence_score := None;
  feature_contributions := None;
  sentiment_score := Some x
|}.

Definition sentiment_state (x : Q) : state :=
  {| text := []; data := Some (sentiment_record x); execMode := false |}.

(** No analysis yet; the user has typed into the input box. *)
Definition typing_state : state :=
  {| text := str "Meet my family"; data := None; execMode := false |}.

(** A payload without an [entities] member. *)
Definition bare_record : AnalysisData := {|
  report_id := "r-2";
  original_text := Some (str "my family");
  entities := None;
  overall_risk_score := Some 10%Q;
  risk_percentile := None;
  confidence_score := None;
  feature_contributions := None;
  sentiment_score := None
|}.

Definition bare_state : state :=
  {| text := []; data := Some bare_record; execMode := false |}.

(** A record whose only entity is the person "fam". *)
Definition split_record : AnalysisData := {|
  report_id := "r-5";
  original_text := Some (str "my family");
  entities := Some [("PERSON"%string, [str "fam"])];
  overall_risk_score := Some 10%Q;
  risk_percentile := None;
  confidence_score := None;
  feature_contributions := None;
  sentiment_score := None
|}.

Definition split_state : state :=
  {| text := []; data := Some split_record; execMode := false |}.

(** A record whose only entity is the organisation "A.B*C". *)
Definition punctuated_record : AnalysisData := {|
  report_id := "r-3";
  original_text := Some (str "see A.B*C, not AxBBC");
  entities := Some [("ORG"%string, [str "A.B*C"])];
  overall_risk_score := Some 20%Q;
  risk_percentile := None;
  confidence_score := None;
  feature_contributions := None;
  sentiment_score := None
|}.

Definition punctuated_state : state :=
  {| text := []; data := Some punctuated_record; execMode := false |}.

End Scenarios.

(** ** The Sparkline component

    The coordinates of the polyline, before they are printed into the
    [points] attribute. *)

Module SparklineView.

Import JS.

(** [Math.max(...data, 1)] *)
Definition max_with_one (data : list Q) : Q :=
  fold_right Qmax 1%Q data.

(** [a / b] where the result is used as a coordinate: [None] stands for
    the [NaN] or infinity of a division by zero. *)
Definition quotient (a b : Q) : option Q :=
  if Qeq_bool b 0 then None else Some (a / b)%Q.

Definition w : Q := 80.
Definition h : Q := 28.

(** The callback of [data.map((v, i) => ...)]:
    [x = (i / (data.length - 1)) * w], [y = h - (v / max) * h]. *)
Definition coordinates (data : list Q) (i : nat) (v : Q) : option Q * Q :=
  let max := max_with_one data in
  let x := (fun q => q * w)%Q <$>
           quotient (inject_Z (Z.of_nat i))
                    (inject_Z (Z.of_nat (length data)) - 1) in
  let y := (h - (v / max) * h)%Q in
  (x, y).

Definition points (data : list Q) : list (option Q * Q) :=
  imap (coordinates data) data.

(** A point that lies in the [w] by [h] box of the drawing. *)
Definition in_viewport (p : option Q * Q) : Prop :=
  (exists x, fst p = Some x /\ 0 <= x <= w)%Q /\ (0 <= snd p <= h)%Q.

End SparklineView.

(** ** Further derived values of the Dashboard component *)

Module Charts.

Import JS Dashboard.

(** [a || b] on numbers: [a] unless it is 0. *)
Definition or_else (a b : Q) : Q := if Qeq_bool a 0 then b else a.

(** The chip colour of an entity type:
    [({ GPE: "#f97316", PERSON: "#60a5fa", ORG: "#22d3ee" }[type] || "#a78bfa")]. *)
Definition chipColors : gmap string jsstring :=
  <["GPE"%string := str "#f97316"]>
    (<["PERSON"%string := str "#60a5fa"]>
       (<["ORG"%string := str "#22d3ee"]> ∅)).

Definition chip_color (type : string) : jsstring :=
  default (str "#a78bfa") (chipColors !! type).

(** [breakdownData]: five named values when a record is present, none
    otherwise. *)
Definition breakdownData (st : state) : list (string * Q) :=
  match data st with
  | Some _ =>
      [("Location Exposure"%string, or_else (locationIdx st) 10);
       ("Corporate Mentions"%string, or_else (corpIdx st) 10);
       ("Family Exposure"%string, familyIdx st);
       ("Emotional Signals"%string, or_else (emoIdx st) 15);
       ("Identity"%string, or_else (identityIdx st) 12)]
  | None => []
  end.

End Charts.

(** ** The security checklist

    The array [checklist] read through its truthiness: a hole or
    [undefined] counts as [false], which is how the component reads it
    ([checked={checklist[i]}], [filter(Boolean)]). *)

Module Checklist.

Local Open Scope nat_scope.

(** [useState([false, false, false, false])] *)
Definition initial : list bool := [false; false; false; false].

(** The updater of [onToggle]:
    [const next = [...prev]; next[i] = !next[i]; return next].  Past the end
    the assignment extends the array; the missing elements read as
    [undefined]. *)
Definition toggle (i : nat) (prev : list bool) : list bool :=
  match prev !! i with
  | Some b => <[i := negb b]> prev
  | None => prev ++ replicate (i - length prev) false ++ [true]
  end.

(** [checklist.filter(Boolean).length] *)
Definition done (l : list bool) : nat := length (List.filter (fun b => b) l).

(** The width of the progress bar in percent:
    [(checklist.filter(Boolean).length / CHECKLIST_ITEMS.length) * 100]. *)
Definition progress (l : list bool) : Q :=
  (inject_Z (Z.of_nat (done l)) / 4 * 100)%Q.

(** The check lists the component can hold: the items rendered have the
    indices 0 to 3. *)
Inductive reachable : list bool -> Prop :=
| reachable_initial : reachable initial
| reachable_toggle (l : list bool) (i : nat) :
    reachable l -> i < 4 -> reachable (toggle i l).

End Checklist.

(** ** AttackPathFlow

    One instance of the component: the stage reached, the intervals it has
    set and that are still running, and the interval the effect's cleanup
    will clear. *)

Module AttackPath.

Local Open Scope nat_scope.

(** [ATTACK_STAGES.length] *)
Definition stages : nat := 5.

Record flow : Type := {
  step : nat;
  timers : gset nat;
  cleanup : option nat;
  next_id : nat
}.

(** First render: [useState(0)]. *)
Definition mount : flow :=
  {| step := 0; timers := ∅; cleanup := None; next_id := 1 |}.

(** The cleanup the previous run of the effect returned, if any. *)
Definition run_cleanup (f : flow) : flow :=
  match cleanup f with
  | Some id =>
      {| step := step f; timers := timers f ∖ {[ id ]};
         cleanup := None; next_id := next_id f |}
  | None => f
  end.

(** The body of the effect: [if (!active) { setStep(0); return; }
    const interval = setInterval(..., 600);
    return () => clearInterval(interval)]. *)
Definition effect (active : bool) (f : flow) : flow :=
  if negb active
  then {| step := 0; timers := timers f; cleanup := cleanup f;
          next_id := next_id f |}
  else {| step := step f; timers := {[ next_id f ]} ∪ timers f;
          cleanup := Some (next_id f); next_id := S (next_id f) |}.

(** The effect runs, on the first render and whenever [active] changed:
    the previous cleanup, then the body. *)
Definition rerender (active : bool) (f : flow) : flow :=
  effect active (run_cleanup f).

(** The interval callback, if interval [id] is still set:
    [setStep((s) => (s < ATTACK_STAGES.length - 1 ? s + 1 : s))]. *)
Definition tick (id : nat) (f : flow) : flow :=
  if decide (id ∈ timers f)
  then {| step := if step f <? stages - 1 then S (step f) else step f;
          timers := timers f; cleanup := cleanup f; next_id := next_id f |}
  else f.

Inductive event : Type :=
| Render (active : bool)
| Tick (id : nat)
| Unmount.

Definition handle (f : flow) (e : event) : flow :=
  match e with
  | Render active => rerender active f
  | Tick id => tick id f
  | Unmount => run_cleanup f
  end.

Definition run (events : list event) (f : flow) : flow :=
  fold_left handle events f.

Inductive reachable : flow -> Prop :=
| reachable_mount : reachable mount
| reachable_step (f : flow) (e : event) :
    reachable f -> reachable (handle f e).

(** Every interval still set is the one the cleanup will clear. *)
Definition owned (f : flow) : Prop :=
  (forall id, id ∈ timers f -> cleanup f = Some id)
  /\ (forall id, cleanup f = Some id -> id < next_id f).

End AttackPath.

(** ** TypewriterText *)

Module TypewriterText.

Import JS.

Local Open Scope nat_scope.

(** [const done = displayed.length >= text.length]; the blinking cursor is
    rendered while [!done]. *)
Definition done (text : jsstring) (h : Typewriter.hook) : bool :=
  length text <=? length (Typewriter.displayed h).

End TypewriterText.

(** ** The requests to the analysis service

    [analyzeText], [analyzeUrl], [uploadCsv] and [uploadPdf] are [async]
    functions: the part before [await] runs when the user asks for the
    analysis, the rest when the service has answered or failed.  The state
    holds what these functions read and write; [alerts] and [requests]
    record the notices shown and the requests sent, oldest first. *)

Module Api.

Import JS Dashboard.

Inductive operation : Type := AnalyzeText | AnalyzeUrl | UploadCsv | UploadPdf.

Record app : Type := {
  a_text : jsstring;
  a_url : jsstring;
  a_data : option AnalysisData;
  a_loading : bool;
  a_showResults : bool;
  a_alerts : list string;
  a_requests : list operation
}.

(** The characters [String.prototype.trim] removes, among the 8-bit ones:
    tab, line feed, vertical tab, form feed, carriage return, space and the
    no-break space. *)
Definition is_space (c : ascii) : bool :=
  let n := nat_of_ascii c in
  ((9 <=? n) && (n <=? 13) || (n =? 32) || (n =? 160))%nat.

(** [!s.trim()]: nothing is left of [s] once the white space is trimmed. *)
Definition blank (s : jsstring) : bool := forallb is_space s.

(** The guard at the head of each function:
    [if (!text.trim()) return] and [if (!url.trim()) return]; the uploads
    have none. *)
Definition refused (op : operation) (st : app) : bool :=
  match op with
  | AnalyzeText => blank (a_text st)
  | AnalyzeUrl => blank (a_url st)
  | UploadCsv | UploadPdf => false
  end.

(** Up to the [await]: [setLoading(true); setShowResults(false);] and the
    request is sent. *)
Definition call (op : operation) (st : app) : app :=
  if refused op st then st
  else {| a_text := a_text st; a_url := a_url st; a_data := a_data st;
          a_loading := true; a_showResults := false;
          a_alerts := a_alerts st;
          a_requests := a_requests st ++ [op] |}.

(** After the [await], when the service answered with [res]:
    [setData(res.data); setTimeout(() => setShowResults(true), 100);]
    and then [setLoading(false)]. *)
Definition resolved (res : AnalysisData) (st : app) : app :=
  {| a_text := a_text st; a_url := a_url st; a_data := Some res;
     a_loading := false; a_showResults := a_showResults st;
     a_alerts := a_alerts st; a_requests := a_requests st |}.

(** The message of the [catch] branch. *)
Definition failure_notice (op : operation) : string :=
  match op with
  | AnalyzeText => "Unable to reach backend. Is FastAPI running on port 8000?"
  | AnalyzeUrl => "URL analysis failed."
  | UploadCsv => "CSV upload failed."
  | UploadPdf => "PDF upload failed."
  end.

(** After the [await], when the request failed: [alert(...)] and then
    [setLoading(false)]. *)
Definition rejected (op : operation) (st : app) : app :=
  {| a_text := a_text st; a_url := a_url st; a_data := a_data st;
     a_loading := false; a_showResults := a_showResults st;
     a_alerts := a_alerts st ++ [failure_notice op];
     a_requests := a_requests st |}.

(** The timer a successful answer sets: [setShowResults(true)]. *)
Definition reveal (st : app) : app :=
  {| a_text := a_text st; a_url := a_url st; a_data := a_data st;
     a_loading := a_loading st; a_showResults := true;
     a_alerts := a_alerts st; a_requests := a_requests st |}.

(** The text area and the URL field: [setText], [setUrl]. *)
Definition setText (s : jsstring) (st : app) : app :=
  {| a_text := s; a_url := a_url st; a_data := a_data st;
     a_loading := a_loading st; a_showResults := a_showResults st;
     a_alerts := a_alerts st; a_requests := a_requests st |}.

Definition setUrl (s : jsstring) (st : app) : app :=
  {| a_text := a_text st; a_url := s; a_data := a_data st;
     a_loading := a_loading st; a_showResults := a_showResults st;
     a_alerts := a_alerts st; a_requests := a_requests st |}.

Inductive event : Type :=
| Call (op : operation)
| Resolved (res : AnalysisData)
| Rejected (op : operation)
| Reveal
| SetText (s : jsstring)
| SetUrl (s : jsstring).

Definition handle (st : app) (e : event) : app :=
  match e with
  | Call op => call op st
  | Resolved res => resolved res st
  | Rejected op => rejected op st
  | Reveal => reveal st
  | SetText s => setText s st
  | SetUrl s => setUrl s st
  end.

Definition run (events : list event) (st : app) : app :=
  fold_left handle events st.

Definition is_reveal (e : event) : bool :=
  match e with Reveal => true | _ => false end.

Definition is_failure (e : event) : bool :=
  match e with Rejected _ => true | _ => false end.

(** The payload of the last answer among [events], if there is one;
    [acc] is the last answer before them. *)
Definition note_answer (acc : option AnalysisData) (e : event)
  : option AnalysisData :=
  match e with Resolved res => Some res | _ => acc end.

Definition last_answer_from (acc : option AnalysisData) (events : list event)
  : option AnalysisData :=
  fold_left note_answer events acc.

Definition last_answer (events : list event) : option AnalysisData :=
  last_answer_from None events.

End Api.

(** ** MetricCard

    One card: the [numericValue] it was last rendered with, its [visible]
    flag, the time-outs it has set that have neither fired nor been cleared,
    the time-out the cleanup of the stagger effect will clear, and the
    [useCountUp] instance behind [animated]. *)

Module MetricCard.

Import JS.

Local Open Scope nat_scope.

(** The duration the card passes: [useCountUp(numericValue ?? 0, 1100, visible)]. *)
Definition duration : Q := 1100.

Record card : Type := {
  numericValue : option Q;
  visible : bool;
  timeouts : gset nat;
  cleanup : option nat;
  next_id : nat;
  animation : CountUp.hook
}.

(** The first render, before its effects: [useState(false)] and the
    [useState(0)] of the hook. *)
Definition first_render (nv : option Q) : card :=
  {| numericValue := nv; visible := false; timeouts := ∅; cleanup := None;
     next_id := 1; animation := CountUp.mount duration |}.

(** The body of the card's own effect:
    [const t = setTimeout(() => setVisible(true), staggerMs);
     return () => clearTimeout(t)]. *)
Definition stagger_effect (c : card) : card :=
  {| numericValue := numericValue c; visible := visible c;
     timeouts := {[ next_id c ]} ∪ timeouts c;
     cleanup := Some (next_id c); next_id := S (next_id c);
     animation := animation c |}.

(** The effect of [useCountUp(numericValue ?? 0, 1100, visible)]. *)
Definition countup_effect (c : card) : card :=
  {| numericValue := numericValue c; visible := visible c;
     timeouts := timeouts c; cleanup := cleanup c; next_id := next_id c;
     animation :=
       CountUp.effect (numericValue c ?? 0%Q) (visible c) (animation c) |}.

(** Mounting: the first render, then the effects in the order of the
    hooks. *)
Definition mount (nv : option Q) : card :=
  countup_effect (stagger_effect (first_render nv)).

(** The cleanup of the stagger effect: [clearTimeout(t)]. *)
Definition run_cleanup (c : card) : card :=
  match cleanup c with
  | Some id =>
      {| numericValue := numericValue c; visible := visible c;
         timeouts := timeouts c ∖ {[ id ]};
         cleanup := None; next_id := next_id c; animation := animation c |}
  | None => c
  end.

(** Time-out [id] fires, if it is still set: [setVisible(true)].  When the
    flag changes the card renders again and the effect of the hook, which
    depends on [trigger], runs. *)
Definition fire (id : nat) (c : card) : card :=
  if decide (id ∈ timeouts c)
  then
    let c' := {| numericValue := numericValue c; visible := true;
                 timeouts := timeouts c ∖ {[ id ]};
                 cleanup := cleanup c; next_id := next_id c;
                 animation := animation c |} in
    if visible c then c' else countup_effect c'
  else c.

(** The card is rendered with another [numericValue]: the effect of the
    hook runs when its [target] changed. *)
Definition setValue (nv : option Q) (c : card) : card :=
  let c' := {| numericValue := nv; visible := visible c;
               timeouts := timeouts c; cleanup := cleanup c;
               next_id := next_id c; animation := animation c |} in
  if Qeq_bool (nv ?? 0%Q) (numericValue c ?? 0%Q) then c' else countup_effect c'.

(** The card is rendered with another [staggerMs]: the cleanup of the
    stagger effect, then its body. *)
Definition restagger (c : card) : card := stagger_effect (run_cleanup c).

(** An animation frame. *)
Definition frame (ts : Q) (c : card) : card :=
  {| numericValue := numericValue c; visible := visible c;
     timeouts := timeouts c; cleanup := cleanup c; next_id := next_id c;
     animation := CountUp.frame ts (animation c) |}.

Inductive event : Type :=
| Fire (id : nat)
| Frame (ts : Q)
| Value (nv : option Q)
| Stagger
| Unmount.

Definition handle (c : card) (e : event) : card :=
  match e with
  | Fire id => fire id c
  | Frame ts => frame ts c
  | Value nv => setValue nv c
  | Stagger => restagger c
  | Unmount => run_cleanup c
  end.

Definition run (events : list event) (c : card) : card :=
  fold_left handle events c.

(** The number in [displayVal]:
    [numericValue !== undefined ? `${animated}%` : value]; [None] when the
    card shows [value] instead. *)
Definition displayVal (c : card) : option Z :=
  (fun _ => CountUp.current (animation c)) <$> numericValue c.

(** A card whose time-out is set and has not fired yet. *)
Definition waiting (c : card) : Prop :=
  visible c = false
  /\ timeouts c = {[ 1 ]}
  /\ cleanup c = Some 1
  /\ animation c = CountUp.mount duration.

(** Events that are no time-out: animation frames and new values. *)
Definition quiet (e : event) : bool :=
  match e with Frame _ | Value _ => true | _ => false end.

(** Events that can still arrive once the card is unmounted. *)
Definition late (e : event) : bool :=
  match e with Fire _ | Frame _ => true | _ => false end.

End MetricCard.

(** * Properties *)

(** Case analysis on the 256 characters. *)
Ltac each_char c := destruct c as [[] [] [] [] [] [] [] []].

(** ** The generator *)

Section Generator.

Import Sparkline.

Lemma toInt32_all_ones : JS.toInt32 0xffffffff = -1.
Proof. reflexivity. Qed.

Lemma band_mask_toInt32 (x : Z) : JS.band x 0xffffffff = JS.toInt32 x.
Proof. unfold JS.band. rewrite toInt32_all_ones. apply Z.land_m1_r. Qed.

Lemma ushr_zero (x : Z) : JS.ushr x 0 = x mod 2 ^ 32.
Proof. unfold JS.ushr, JS.toUint32. apply Z.shiftr_0_r. Qed.

Lemma toInt32_mod (x : Z) : JS.toInt32 x mod 2 ^ 32 = x mod 2 ^ 32.
Proof.
  unfold JS.toInt32.
  change (2 ^ 32) with 4294967296. change (2 ^ 31) with 2147483648.
  Z.div_mod_to_equations. lia.
Qed.

Lemma toInt32_range (x : Z) : - 2 ^ 31 <= JS.toInt32 x < 2 ^ 31.
Proof.
  unfold JS.toInt32.
  change (2 ^ 32) with 4294967296. change (2 ^ 31) with 2147483648.
  pose proof (Z.mod_pos_bound (x + 2147483648) 4294967296). lia.
Qed.

Lemma next_state_eq (s : Z) :
  next_state s = JS.toInt32 (s * 1664525 + 1013904223).
Proof. unfold next_state, rand. cbn [snd]. apply band_mask_toInt32. Qed.

Lemma ustate_next (s : Z) :
  ustate (next_state s) = (s * 1664525 + 1013904223) mod 2 ^ 32.
Proof. unfold ustate. rewrite ushr_zero, next_state_eq. apply toInt32_mod. Qed.

Lemma ustate_range (s : Z) : 0 <= ustate s <= 2 ^ 32 - 1.
Proof.
  unfold ustate. rewrite ushr_zero.
  pose proof (Z.mod_pos_bound s (2 ^ 32)). lia.
Qed.

(** After a draw the state is a 32-bit integer, so the next update stays
    within the integers a double represents exactly. *)
Lemma next_state_stays_exact (s : Z) :
  - 2 ^ 53 < next_state s * 1664525 + 1013904223 < 2 ^ 53.
Proof.
  rewrite next_state_eq.
  pose proof (toInt32_range (s * 1664525 + 1013904223)) as H.
  change (2 ^ 31) with 2147483648 in H.
  change (2 ^ 53) with 9007199254740992. lia.
Qed.

Lemma draw_eq (s : Z) :
  draw s = (inject_Z (ustate (next_state s)) / inject_Z 0xffffffff)%Q.
Proof. reflexivity. Qed.

Lemma draw_as_fraction (s : Z) :
  (draw s == ustate (next_state s) # 4294967295)%Q.
Proof.
  rewrite draw_eq. rewrite (Qmake_Qdiv (ustate (next_state s)) 4294967295).
  reflexivity.
Qed.

Lemma draw_bounds (s : Z) : (0 <= draw s <= 1)%Q.
Proof.
  rewrite draw_as_fraction. pose proof (ustate_range (next_state s)) as H.
  change (2 ^ 32 - 1) with 4294967295 in H.
  unfold Qle; cbn [Qnum Qden]. lia.
Qed.

Lemma draw_one_iff (s : Z) :
  (draw s == 1)%Q <-> ustate (next_state s) = 2 ^ 32 - 1.
Proof.
  rewrite draw_as_fraction. change (2 ^ 32 - 1) with 4294967295.
  unfold Qeq; cbn [Qnum Qden]. lia.
Qed.

(** As long as the state is at most [2^32] in magnitude, the product and
    the sum of the update are integers below [2^53]: the double-precision
    arithmetic of the source computes them exactly. *)
Lemma update_is_exact (s : Z) :
  - 2 ^ 32 <= s <= 2 ^ 32 ->
  - 2 ^ 53 < s * 1664525 < 2 ^ 53
  /\ - 2 ^ 53 < s * 1664525 + 1013904223 < 2 ^ 53.
Proof.
  change (2 ^ 32) with 4294967296. change (2 ^ 53) with 9007199254740992. lia.
Qed.

(** C2 (as the code has it). For a state of at most [2^32] in magnitude
    (a small seed, or any state after a draw) the update stays within the
    integers a double represents exactly, the new state is a 32-bit
    integer again, and its unsigned reading follows the 32-bit linear
    congruential recurrence; a draw is that state divided by [2^32 - 1]
    (the source divides by [0xffffffff]), so it lies in the closed interval
    [0,1] and equals 1 exactly when the state is [2^32 - 1]. *)
Theorem rand_lcg_closed_unit_interval (s : Z) :
  - 2 ^ 32 <= s <= 2 ^ 32 ->
  (- 2 ^ 53 < s * 1664525 < 2 ^ 53
   /\ - 2 ^ 53 < s * 1664525 + 1013904223 < 2 ^ 53)
  /\ - 2 ^ 31 <= next_state s < 2 ^ 31
  /\ ustate (next_state s) = (ustate s * 1664525 + 1013904223) mod 2 ^ 32
  /\ (draw s == inject_Z (ustate (next_state s)) / inject_Z (2 ^ 32 - 1))%Q
  /\ (0 <= draw s <= 1)%Q
  /\ ((draw s == 1)%Q <-> ustate (next_state s) = 2 ^ 32 - 1).
Proof.
  intros Hs. split; [|split; [|split; [|split; [|split]]]].
  - now apply update_is_exact.
  - rewrite next_state_eq. apply toInt32_range.
  - rewrite ustate_next. unfold ustate. rewrite ushr_zero.
    change (2 ^ 32) with 4294967296.
    Z.div_mod_to_equations. lia.
  - rewrite draw_eq. reflexivity.
  - apply draw_bounds.
  - apply draw_one_iff.
Qed.

Lemma rand_lcg_closed_unit_interval_witness :
  ustate (next_state 1) = (ustate 1 * 1664525 + 1013904223) mod 2 ^ 32
  /\ (0 <= draw 1 <= 1)%Q.
Proof.
  destruct (rand_lcg_closed_unit_interval 1) as (_ & _ & H & _ & Hd & _).
  - vm_compute. split; discriminate.
  - split; [exact H | exact Hd].
Defined.

(** C2 fails as stated.  From the seed 1 the first draw is
    [1015568748 / 4294967295], not the state divided by [2^32]; and from
    the state 653637408 the generator moves to the state [2^32 - 1] and the
    draw is exactly 1, which is not below 1. *)
Lemma rand_draw_reaches_one :
  ustate (next_state 1) = 1015568748
  /\ (draw 1 == 1015568748 # 4294967295)%Q
  /\ ~ (draw 1 == inject_Z (ustate (next_state 1)) / inject_Z (2 ^ 32))%Q
  /\ ustate (next_state 653637408) = 2 ^ 32 - 1
  /\ (draw 653637408 == 1)%Q
  /\ ~ (draw 653637408 < 1)%Q.
Proof.
  repeat apply conj; try reflexivity;
    intros H; vm_compute in H; discriminate H.
Qed.

End Generator.

(** ** The sparkline synthesizer *)

Section SparklineFacts.

Import Sparkline.

Lemma point_run (v : Q) (i : nat) (s : Z) :
  point v i s =
  (Qmax 0 (v - (6 - inject_Z (Z.of_nat i)) * (v / 12) + draw s * 4)%Q,
   next_state s).
Proof. reflexivity. Qed.

Lemma Array_from_at_point (v : Q) (n : nat) :
  forall (i : nat) (s : Z),
    Array_from_at (point v) n i s =
    (map (fun j => Qmax 0 (v - (6 - inject_Z (Z.of_nat (i + j))) * (v / 12)
                           + draw (Nat.iter j next_state s) * 4)%Q)
         (seq 0 n),
     Nat.iter n next_state s).
Proof.
  induction n as [|n IH]; intros i s.
  - reflexivity.
  - cbn [Array_from_at]. unfold bind at 1. rewrite point_run.
    unfold bind at 1. rewrite IH. unfold ret.
    rewrite Nat.iter_succ_r.
    cbn [seq map]. rewrite <- seq_shift, map_map.
    rewrite Nat.add_0_r. f_equal. f_equal.
    apply map_ext. intros j.
    rewrite Nat.iter_succ_r, <- plus_n_Sm. reflexivity.
Qed.

Lemma makeSparkline_run_eq (v : Q) (seed : Z) :
  makeSparkline_run v seed =
  (map (spec_point v seed) (seq 0 7),
   Nat.iter 7 next_state (seededRand (seed + JS.Math_round v))).
Proof.
  unfold makeSparkline_run, Array_from. rewrite Array_from_at_point.
  reflexivity.
Qed.

Lemma Math_round_compat (v v' : Q) :
  (v' == v)%Q -> JS.Math_round v' = JS.Math_round v.
Proof. intros H. unfold JS.Math_round. now rewrite H. Qed.

Lemma spec_point_compat (v v' : Q) (seed : Z) (i : nat) :
  (v' == v)%Q -> (spec_point v' seed i == spec_point v seed i)%Q.
Proof.
  intros H. unfold spec_point. rewrite (Math_round_compat v v' H).
  now rewrite H.
Qed.

(** C1. [makeSparkline] returns exactly seven points; point [i] is
    [max(0, val - (6-i)*(val/12) + draw_i*4)] where [draw_i] is the [i]-th
    draw of the generator created for this call; the call takes exactly
    seven draws, one per point and in point order; two calls with the
    same arguments return the same sequence, and numerically equal target
    values give numerically equal sequences. *)
Theorem makeSparkline_spec (v : Q) (seed : Z) :
  makeSparkline v seed = map (spec_point v seed) (seq 0 7)
  /\ length (makeSparkline v seed) = 7%nat
  /\ snd (makeSparkline_run v seed) =
     Nat.iter 7 next_state (seededRand (seed + JS.Math_round v))
  /\ (forall (v' : Q) (seed' : Z),
        v' = v -> seed' = seed ->
        makeSparkline v' seed' = makeSparkline v seed)
  /\ (forall v' : Q,
        (v' == v)%Q ->
        Forall2 Qeq (makeSparkline v' seed) (makeSparkline v seed)).
Proof.
  split; [|split; [|split; [|split]]].
  - unfold makeSparkline. now rewrite makeSparkline_run_eq.
  - unfold makeSparkline. now rewrite makeSparkline_run_eq.
  - now rewrite makeSparkline_run_eq.
  - now intros v' seed' -> ->.
  - intros v' H. unfold makeSparkline. rewrite !makeSparkline_run_eq.
    cbn [fst]. induction (seq 0 7) as [|i l IH]; cbn [map]; constructor.
    + now apply spec_point_compat.
    + exact IH.
Qed.

Lemma makeSparkline_spec_witness :
  makeSparkline 50 1 = map (spec_point 50 1) (seq 0 7)
  /\ makeSparkline 50 1 = makeSparkline 50 1.
Proof.
  destruct (makeSparkline_spec 50 1) as (H1 & _ & _ & H4 & _).
  split; [exact H1 | apply H4; reflexivity].
Defined.

(** C10. Every point of a sparkline is non-negative and the last (seventh)
    point is at least the target value. *)
Theorem makeSparkline_ends_at_target (v : Q) (seed : Z) :
  Forall (fun p => 0 <= p)%Q (makeSparkline v seed)
  /\ exists p, nth_error (makeSparkline v seed) 6 = Some p /\ (v <= p)%Q.
Proof.
  unfold makeSparkline. rewrite makeSparkline_run_eq. cbn [fst].
  split.
  - apply List.Forall_forall. intros p Hp. apply in_map_iff in Hp.
    destruct Hp as (i & <- & _). unfold spec_point. apply Q.le_max_l.
  - eexists. split; [reflexivity|].
    unfold spec_point, nth_draw.
    set (d := draw _). pose proof (draw_bounds (Nat.iter 6 next_state
       (seededRand (seed + JS.Math_round v)))) as [Hd _]. fold d in Hd.
    eapply Qle_trans; [|apply Q.le_max_r].
    change (inject_Z (Z.of_nat 6)) with 6%Q.
    lra.
Qed.

End SparklineFacts.

(** ** Numbers *)

Section Numbers.

Import JS.

Local Open Scope Q_scope.

Lemma floor_bounds (x : Q) : inject_Z (Qfloor x) <= x < inject_Z (Qfloor x) + 1.
Proof.
  split; [apply Qfloor_le|].
  pose proof (Qlt_floor x) as H. rewrite inject_Z_plus in H. exact H.
Qed.

Lemma round_half_even_near (x : Q) :
  - (1 # 2) <= inject_Z (round_half_even x) - x <= 1 # 2.
Proof.
  unfold round_half_even. pose proof (floor_bounds x) as [H1 H2].
  destruct (x - inject_Z (Qfloor x) ?= 1 # 2) eqn:E.
  - apply Qeq_alt in E.
    destruct (Z.even (Qfloor x));
      [|rewrite inject_Z_plus; change (inject_Z 1) with 1]; lra.
  - apply Qlt_alt in E. lra.
  - apply Qgt_alt in E. rewrite inject_Z_plus. change (inject_Z 1) with 1. lra.
Qed.

Lemma round_half_even_nonneg (x : Q) : 0 <= x -> (0 <= round_half_even x)%Z.
Proof.
  intros H. assert (Hf : (0 <= Qfloor x)%Z).
  { change 0%Z with (Qfloor 0). now apply Qfloor_resp_le. }
  unfold round_half_even.
  destruct (_ ?= _); [destruct (Z.even _)| |]; lia.
Qed.

Lemma pow2_pos (u : Z) : 0 < 2 ^ u.
Proof. apply Qpower_0_lt. reflexivity. Qed.

(** Rounding to double precision keeps the sign. *)
Lemma binary64_nonneg (x : Q) : 0 <= x -> 0 <= binary64 x.
Proof.
  intros H. unfold binary64. destruct (Qeq_bool x 0); [lra|].
  set (u := Z.max _ _). pose proof (pow2_pos u) as Hu.
  apply Qmult_le_0_compat; [|lra].
  change 0 with (inject_Z 0). rewrite <- Zle_Qle.
  apply round_half_even_nonneg. apply Qle_shift_div_l; lra.
Qed.

Lemma Qabs_num_den (x : Q) :
  Qabs x == inject_Z (Z.abs (Qnum x)) / inject_Z (Zpos (Qden x)).
Proof.
  destruct x as [n d]. cbn [Qnum Qden]. unfold Qabs.
  rewrite (Qmake_Qdiv (Z.abs n) d). reflexivity.
Qed.

Lemma ilog2_le (x : Q) : ~ x == 0 -> 2 ^ ilog2 x <= Qabs x.
Proof.
  intros Hx. unfold ilog2.
  set (n := Z.abs (Qnum x)). set (d := Zpos (Qden x)).
  destruct (Qle_bool (2 ^ (Z.log2 n - Z.log2 d)) (Qabs x)) eqn:E.
  - now apply Qle_bool_iff in E.
  - assert (Hn : (0 < n)%Z).
    { unfold n. destruct x as [[|p|p] q]; cbn; try lia.
      exfalso. apply Hx. reflexivity. }
    assert (Hd : (0 < d)%Z) by (unfold d; lia).
    destruct (Z.log2_spec n Hn) as [Hn1 _].
    destruct (Z.log2_spec d Hd) as [_ Hd2].
    pose proof (Z.log2_nonneg n) as Hln. pose proof (Z.log2_nonneg d) as Hld.
    rewrite Qabs_num_den. fold n d.
    replace (Z.log2 n - Z.log2 d - 1)%Z with (Z.log2 n - Z.succ (Z.log2 d))%Z by lia.
    rewrite Qpower_minus by discriminate.
    assert (Ea : 2 ^ Z.log2 n == inject_Z (2 ^ Z.log2 n))
      by (symmetry; apply (Zpower_Qpower 2); lia).
    assert (Eb : 2 ^ Z.succ (Z.log2 d) == inject_Z (2 ^ Z.succ (Z.log2 d)))
      by (symmetry; apply (Zpower_Qpower 2); lia).
    rewrite Ea, Eb.
    assert (H1 : inject_Z (2 ^ Z.log2 n) <= inject_Z n) by now rewrite <- Zle_Qle.
    assert (H2 : inject_Z d <= inject_Z (2 ^ Z.succ (Z.log2 d)))
      by (rewrite <- Zle_Qle; lia).
    assert (H3 : 0 < inject_Z d) by (change 0 with (inject_Z 0); now rewrite <- Zlt_Qlt).
    assert (H4 : 0 < inject_Z (2 ^ Z.log2 n)).
    { change 0 with (inject_Z 0). rewrite <- Zlt_Qlt. lia. }
    assert (H5 : 0 < inject_Z (2 ^ Z.succ (Z.log2 d))) by lra.
    set (A := inject_Z (2 ^ Z.log2 n)) in *.
    set (B := inject_Z (2 ^ Z.succ (Z.log2 d))) in *.
    set (N := inject_Z n) in *. set (D := inject_Z d) in *.
    apply Qle_shift_div_l; [exact H3|].
    assert (Hq0 : 0 <= A / B) by (apply Qle_shift_div_l; lra).
    assert (Hq : A / B * B == A) by (field; lra).
    set (q := A / B) in *. nra.
Qed.

(** The rounding error of a number below [2 ^ (e + 1)] in magnitude is at
    most half a unit of its last of 53 binary digits. *)
Lemma binary64_error (x : Q) (e : Z) :
  Qabs x < 2 ^ (e + 1) -> (-1074 <= e - 52)%Z ->
  Qabs (binary64 x - x) <= 2 ^ (e - 53).
Proof.
  intros Hx He. unfold binary64. destruct (Qeq_bool x 0) eqn:E0.
  - apply Qeq_bool_iff in E0.
    assert (H : 0 - x == 0) by (rewrite E0; ring). rewrite H. cbn [Qabs Z.abs].
    apply Qlt_le_weak, pow2_pos.
  - assert (Hnz : ~ x == 0).
    { intros H. apply Qeq_bool_iff in H. congruence. }
    pose proof (ilog2_le x Hnz) as Hl.
    assert (Hlt : (ilog2 x < e + 1)%Z).
    { apply (Qpower_lt_compat_l_inv 2); [lra | reflexivity]. }
    set (u := Z.max (ilog2 x - 52) (-1074)).
    assert (Hu : (u <= e - 52)%Z) by (unfold u; lia).
    pose proof (pow2_pos u) as Hpu.
    pose proof (round_half_even_near (x / 2 ^ u)) as [Hr1 Hr2].
    set (r := inject_Z (round_half_even (x / 2 ^ u))) in *.
    assert (Hx' : x == x / 2 ^ u * 2 ^ u) by (field; lra).
    assert (Hhalf : 2 ^ u * (1 # 2) <= 2 ^ (e - 53)).
    { replace (e - 53)%Z with (e - 52 - 1)%Z by lia.
      rewrite (Qpower_minus 2 (e - 52) 1) by discriminate.
      assert (Hle : 2 ^ u <= 2 ^ (e - 52)).
      { apply Qpower_le_compat_l; [exact Hu | lra]. }
      change (2 ^ 1) with 2. unfold Qdiv. change (/ 2) with (1 # 2).
      apply Qmult_le_compat_r; [exact Hle | lra]. }
    apply Qabs_Qle_condition. split.
    + assert (H : r * 2 ^ u - x == (r - x / 2 ^ u) * 2 ^ u) by (field; lra).
      rewrite H. nra.
    + assert (H : r * 2 ^ u - x == (r - x / 2 ^ u) * 2 ^ u) by (field; lra).
      rewrite H. nra.
Qed.

(** Rounding at work: decimals that are not binary fractions, the ties
    above [2^53] (to the even neighbour) and the smallest numbers. *)
Example binary64_values :
  binary64 (1 # 10) == 3602879701896397 # 36028797018963968
  /\ binary64 (12 # 10) == 5404319552844595 # 4503599627370496
  /\ binary64 (1 # 2) == 1 # 2
  /\ binary64 (inject_Z (2 ^ 53 + 1)) == inject_Z (2 ^ 53)
  /\ binary64 (inject_Z (2 ^ 53 + 3)) == inject_Z (2 ^ 53 + 4)
  /\ binary64 (- inject_Z (2 ^ 53 + 1)) == - inject_Z (2 ^ 53)
  /\ binary64 (1 # 2 ^ 1075) == 0
  /\ binary64 (3 # 2 ^ 1075) == 1 # 2 ^ 1073.
Proof. vm_compute. repeat split. Qed.

Lemma Math_round_near (x : Q) :
  - (1 # 2) < inject_Z (Math_round x) - x <= 1 # 2.
Proof.
  unfold Math_round. pose proof (floor_bounds (x + (1 # 2))) as [H1 H2]. lra.
Qed.

End Numbers.

(** ** Strings *)

Section StringFacts.

Import JS Reference.

Lemma startsWith_iff (s p : jsstring) :
  startsWith s p = true <-> exists suf, s = p ++ suf.
Proof.
  revert s. induction p as [|a p IH]; intros s.
  - destruct s; cbn; split; eauto.
  - destruct s as [|b s]; cbn.
    + split; [discriminate | intros (suf & H); discriminate H].
    + destruct (ascii_dec a b) as [->|Hne]; cbn.
      * rewrite IH. split; intros (suf & H); exists suf; [now subst | now injection H].
      * split; [discriminate | intros (suf & H); injection H; congruence].
Qed.

Lemma includes_iff (s p : jsstring) :
  includes s p = true <-> exists pre suf, s = pre ++ p ++ suf.
Proof.
  induction s as [|c s IH]; cbn [includes].
  - rewrite orb_false_r, startsWith_iff. split.
    + intros (suf & H). now exists [], suf.
    + intros (pre & suf & H). destruct pre; [now exists suf|discriminate H].
  - rewrite orb_true_iff, startsWith_iff, IH. split.
    + intros [(suf & H) | (pre & suf & H)].
      * now exists [], suf.
      * exists (c :: pre), suf. now rewrite H.
    + intros (pre & suf & H). destruct pre as [|c' pre].
      * left. now exists suf.
      * right. injection H as _ H. now exists pre, suf.
Qed.

Lemma toLowerCase_app (a b : jsstring) :
  toLowerCase (a ++ b) = toLowerCase a ++ toLowerCase b.
Proof. apply map_app. Qed.

Lemma includes_lower_iff (s w : jsstring) :
  includes (toLowerCase s) (toLowerCase w) = true <-> occurs_ci w s.
Proof.
  rewrite includes_iff. unfold occurs_ci. split.
  - intros (pre & suf & H). unfold toLowerCase in H.
    apply map_eq_app in H as (pre' & rest & -> & Hpre & H).
    apply map_eq_app in H as (mid & suf' & -> & Hmid & Hsuf).
    now exists pre', mid, suf'.
  - intros (pre & mid & suf & -> & Hmid).
    exists (toLowerCase pre), (toLowerCase suf).
    now rewrite !toLowerCase_app, Hmid.
Qed.

End StringFacts.

(** ** Derived metrics *)

Section Metrics.

Import JS Dashboard Reference Scenarios.

Lemma Math_round_zero_scaled (k : Q) : Math_round (0 * k) = 0.
Proof.
  unfold Math_round. 
  assert (H : (0 * k + (1 # 2) == 1 # 2)%Q) by ring.
  rewrite H. reflexivity.
Qed.

(** C3. With a record present whose risk score lies between 0 and 100 and
    whose sentiment score lies between -1 and 1, every derived metric is
    the value its reference definition gives, the arithmetic being that of
    the source's numbers: the effective score is the score itself, or with
    the executive mode on the rounded product with 1.2 capped at 100, in
    both cases between 0 and 100; the indices are the contributions or 0;
    the emotional index is the rounded product of the sentiment score with
    100, an integer within a half (and the rounding error of the product)
    of one hundred times the score: 30 for the payload values 0.3 and
    0.295, 28 for 0.285; the family flag is 73 exactly when the
    text contains "family" in any case. *)
Theorem derived_metrics_present
    (st : state) (d : AnalysisData) (s sent : Q) (fc : gmap string Q)
    (txt : jsstring) :
  data st = Some d ->
  overall_risk_score d = Some s ->
  feature_contributions d = Some fc ->
  sentiment_score d = Some sent ->
  original_text d = Some txt ->
  (0 <= s <= 100)%Q ->
  (-1 <= sent <= 1)%Q ->
  effectiveScore st =
    (if execMode st
     then Qmin (inject_Z (Math_round (binary64 (s * binary64 (12 # 10))))) 100
     else s)
  /\ (0 <= effectiveScore st <= 100)%Q
  /\ identityIdx st = default 0%Q (fc !! "PERSON"%string)
  /\ locationIdx st = default 0%Q (fc !! "GPE"%string)
  /\ corpIdx st = default 0%Q (fc !! "ORG"%string)
  /\ emoIdx st = inject_Z (Math_round (binary64 (sent * 100)))
  /\ (Qabs (emoIdx st - sent * 100) <= (1 # 2) + 2 ^ (-47))%Q
  /\ map (fun x => emoIdx (sentiment_state (number x)))
         [3 # 10; 295 # 1000; 285 # 1000]%Q
     = [30; 30; 28]%Q
  /\ (occurs_ci (str "family") txt -> familyIdx st = 73%Q)
  /\ (~ occurs_ci (str "family") txt -> familyIdx st = 0%Q).
Proof.
  intros Hd Hs Hfc Hsent Htxt Hrange Hsrange.
  assert (Hscore : score st = s) by (unfold score; rewrite Hd; cbn; now rewrite Hs).
  assert (Hfeat : forall k, feature st k = default 0%Q (fc !! k)).
  { intros k. unfold feature. rewrite Hd. cbn. rewrite Hfc. cbn.
    now destruct (fc !! k). }
  assert (Hfam : familyIdx st =
            if includes (toLowerCase txt) (toLowerCase (str "family"))
            then 73%Q else 0%Q).
  { unfold familyIdx. rewrite Hd. cbn [mbind option_bind]. now rewrite Htxt. }
  assert (Hemo : emoIdx st = inject_Z (Math_round (binary64 (sent * 100)))).
  { unfold emoIdx. rewrite Hd. cbn. now rewrite Hsent. }
  repeat apply conj.
  - unfold effectiveScore. now rewrite Hscore.
  - unfold effectiveScore. rewrite Hscore.
    destruct (execMode st); [|apply Hrange].
    unfold Math_min. apply Q.min_glb; [|lra].
    change 0%Q with (inject_Z 0). rewrite <- Zle_Qle.
    change 0 with (Math_round 0). unfold Math_round. apply Qfloor_resp_le.
    assert (H : (0 <= mul s (number (12 # 10)))%Q).
    { apply binary64_nonneg. apply Qmult_le_0_compat; [apply Hrange|].
      now apply binary64_nonneg. }
    lra.
  - unfold effectiveScore. rewrite Hscore.
    destruct (execMode st); [apply Q.le_min_r | apply Hrange].
  - apply Hfeat.
  - apply Hfeat.
  - apply Hfeat.
  - exact Hemo.
  - rewrite Hemo.
    assert (Hx : (Qabs (sent * 100) < 2 ^ (6 + 1))%Q).
    { apply Qabs_Qlt_condition. change (2 ^ (6 + 1))%Q with 128%Q. lra. }
    pose proof (binary64_error (sent * 100) 6 Hx ltac:(lia)) as He.
    apply Qabs_Qle_condition in He. change (6 - 53) with (-59 + 12) in He.
    change (2 ^ (-59 + 12))%Q with (2 ^ (-47))%Q in He.
    pose proof (Math_round_near (binary64 (sent * 100))) as Hr.
    apply Qabs_Qle_condition. lra.
  - vm_compute. reflexivity.
  - intros Hocc. rewrite Hfam.
    apply includes_lower_iff in Hocc. now rewrite Hocc.
  - intros Hocc. rewrite Hfam.
    destruct (includes _ _) eqn:E; [|reflexivity].
    apply includes_lower_iff in E. contradiction.
Qed.

Lemma derived_metrics_present_witness :
  effectiveScore scenario_state = 60%Q
  /\ identityIdx scenario_state = 12%Q
  /\ locationIdx scenario_state = 20%Q
  /\ corpIdx scenario_state = 5%Q
  /\ emoIdx scenario_state = 30%Q
  /\ familyIdx scenario_state = 73%Q.
Proof.
  destruct (derived_metrics_present scenario_state scenario_record
              50%Q (number (3 # 10))
              scenario_contributions
              (str "Dinner with my Family in Berlin")
              eq_refl eq_refl eq_refl eq_refl eq_refl)
    as (He & _ & Hi & Hl & Hc & Hm & _ & _ & Hf & _).
  - vm_compute. split; discriminate.
  - vm_compute. split; discriminate.
  - repeat apply conj.
    + rewrite He. vm_compute. reflexivity.
    + rewrite Hi. reflexivity.
    + rewrite Hl. reflexivity.
    + rewrite Hc. reflexivity.
    + rewrite Hm. vm_compute. reflexivity.
    + apply Hf.
      exists (str "Dinner with my "), (str "Family"), (str " in Berlin").
      split; reflexivity.
Defined.

(** The product is rounded to double precision before [Math.round] sees
    it.  For the score 0.295 of a payload (the double nearest to it, which
    is a little smaller) the product is exactly 29.5 and the index is 30,
    where the unrounded product gives 29; for 0.285 the product is a
    little below 28.5 and the index is 28, where the decimal gives 29. *)
Example emoIdx_rounds_the_product :
  emoIdx (sentiment_state (number (295 # 1000))) = 30%Q
  /\ (mul (number (295 # 1000)) 100 == 59 # 2)%Q
  /\ Math_round (number (295 # 1000) * 100) = 29
  /\ emoIdx (sentiment_state (number (285 # 1000))) = 28%Q
  /\ Math_round ((285 # 1000) * 100) = 29.
Proof. vm_compute. repeat split. Qed.

Lemma le_true_iff (a b : Q) : JS.le a b = true <-> (a <= b)%Q.
Proof. apply Qle_bool_iff. Qed.

Lemma le_false_iff (a b : Q) : JS.le a b = false <-> (b < a)%Q.
Proof.
  rewrite <- not_true_iff_false, le_true_iff. split.
  - apply Qnot_le_lt.
  - apply Qlt_not_le.
Qed.

(** C4. The label is banded with inclusive upper bounds 30, 60 and 80; it
    never consults the executive mode; the colour is the critical hue
    whenever the executive mode is on and the band's hue otherwise. *)
Theorem risk_classification (st : state) (arg : option Q) :
  let s := arg ?? effectiveScore st in
  ((s <= 30)%Q -> getRiskLabel st arg = "Low Risk"%string)
  /\ ((30 < s)%Q -> (s <= 60)%Q -> getRiskLabel st arg = "Moderate Risk"%string)
  /\ ((60 < s)%Q -> (s <= 80)%Q -> getRiskLabel st arg = "High Risk"%string)
  /\ ((80 < s)%Q -> getRiskLabel st arg = "Critical Risk"%string)
  /\ (execMode st = true -> getRiskColor st arg = color_critical)
  /\ (execMode st = false -> getRiskColor st arg = band_color s)
  /\ (forall (st' : state) (x : Q),
        getRiskLabel st' (Some x) = getRiskLabel st (Some x))
  /\ map (fun x => getRiskLabel st (Some x))
         [30%Q; 31%Q; 60%Q; 61%Q; 80%Q; 81%Q]
     = ["Low Risk"; "Moderate Risk"; "Moderate Risk";
        "High Risk"; "High Risk"; "Critical Risk"]%string.
Proof.
  intros s. unfold getRiskLabel, getRiskColor, band_color. fold s.
  repeat apply conj.
  - intros H. apply le_true_iff in H. now rewrite H.
  - intros H1 H2. apply le_false_iff in H1. apply le_true_iff in H2.
    now rewrite H1, H2.
  - intros H1 H2.
    assert (H0 : (30 < s)%Q) by lra.
    apply le_false_iff in H0, H1. apply le_true_iff in H2.
    now rewrite H0, H1, H2.
  - intros H.
    assert (H0 : (30 < s)%Q) by lra. assert (H1 : (60 < s)%Q) by lra.
    apply le_false_iff in H0, H1, H. now rewrite H0, H1, H.
  - now intros ->.
  - now intros ->.
  - reflexivity.
  - reflexivity.
Qed.

Lemma risk_classification_witness :
  getRiskLabel scenario_state None = "Moderate Risk"%string
  /\ getRiskColor scenario_state None = color_critical
  /\ getRiskLabel scenario_state (Some 81%Q) = "Critical Risk"%string.
Proof.
  destruct (risk_classification scenario_state None)
    as (_ & Hmod & _ & _ & Hcol & _).
  destruct (risk_classification scenario_state (Some 81%Q))
    as (_ & _ & _ & Hcrit & _).
  repeat apply conj.
  - apply Hmod; vm_compute; [reflexivity | discriminate].
  - apply Hcol. reflexivity.
  - apply Hcrit. vm_compute. reflexivity.
Defined.

(** C5 (as the code has it). Without a record every metric is 0, except
    the family flag, which is then computed from the current input text. *)
Theorem derived_metrics_absent (st : state) :
  data st = None ->
  effectiveScore st = 0%Q
  /\ confidence st = 0%Q
  /\ percentile st = 0%Q
  /\ identityIdx st = 0%Q
  /\ locationIdx st = 0%Q
  /\ corpIdx st = 0%Q
  /\ emoIdx st = 0%Q
  /\ familyIdx st =
       (if includes (toLowerCase (text st)) (str "family") then 73%Q else 0%Q)
  /\ (~ occurs_ci (str "family") (text st) -> familyIdx st = 0%Q).
Proof.
  intros Hd.
  assert (Hfam : familyIdx st =
     if includes (toLowerCase (text st)) (str "family") then 73%Q else 0%Q).
  { unfold familyIdx. now rewrite Hd. }
  repeat apply conj.
  - unfold effectiveScore, score. rewrite Hd. now destruct (execMode st).
  - unfold confidence. now rewrite Hd.
  - unfold percentile. now rewrite Hd.
  - unfold identityIdx, feature. now rewrite Hd.
  - unfold locationIdx, feature. now rewrite Hd.
  - unfold corpIdx, feature. now rewrite Hd.
  - unfold emoIdx. now rewrite Hd.
  - exact Hfam.
  - intros Hocc. rewrite Hfam.
    destruct (includes _ _) eqn:E; [|reflexivity].
    apply (includes_lower_iff (text st) (str "family")) in E. contradiction.
Qed.

Lemma derived_metrics_absent_witness :
  effectiveScore typing_state = 0%Q /\ emoIdx typing_state = 0%Q.
Proof.
  destruct (derived_metrics_absent typing_state eq_refl)
    as (He & _ & _ & _ & _ & _ & Hm & _).
  split; [exact He | exact Hm].
Defined.

(** C5 fails as stated: with no record and the input text
    "Meet my family" the family flag is 73, not 0. *)
Lemma family_flag_without_record :
  data typing_state = None
  /\ familyIdx typing_state = 73%Q
  /\ ~ (familyIdx typing_state == 0)%Q.
Proof.
  split; [reflexivity|]. split; [reflexivity|].
  intros H. vm_compute in H. discriminate H.
Qed.

End Metrics.

(** ** The regular-expression engine on literal patterns *)

Section Engine.

Import JS RegExp Highlighter Reference.

Local Open Scope nat_scope.

(** *** The escaping pass *)

(** The compiled form of [/[-/\\^$*+?.()|[\]{}]/g]. *)
Lemma escape_regexp_compiles :
  RegExp_new escape_pattern (str "g") =
  Ok {| re_ast := Seq (Class false (rev (str "-/\^$*+?.()|[]{}"))) Empty;
        re_groups := 0;
        re_flags := {| global := true; ignoreCase := false |} |}.
Proof. reflexivity. Qed.

Lemma class_members_meta (c : ascii) :
  existsb (fun m => same_char false m c) (rev (str "-/\^$*+?.()|[]{}"))
  = is_meta c.
Proof. each_char c; reflexivity. Qed.

Lemma succ_sub_self (n : nat) : S n - n = 1.
Proof. lia. Qed.

Lemma escape_scan (re : RegExp) (input : jsstring) :
  re = {| re_ast := Seq (Class false (rev (str "-/\^$*+?.()|[]{}"))) Empty;
          re_groups := 0;
          re_flags := {| global := true; ignoreCase := false |} |} ->
  forall (rest : jsstring) (idx : nat),
    replace_scan re escape_template input idx rest 0 true = escaped rest.
Proof.
  intros ->. induction rest as [|c rest IH]; intros idx.
  - reflexivity.
  - cbn [replace_scan]. unfold match_at.
    cbn [re_flags re_ast ignoreCase matcher m_rest xorb].
    rewrite class_members_meta.
    change (escaped (c :: rest))
      with ((if is_meta c then ["\"%char; c] else [c]) ++ escaped rest).
    destruct (is_meta c).
    + cbn [advance m_idx m_caps]. rewrite succ_sub_self.
      cbn. rewrite IH. reflexivity.
    + rewrite IH. reflexivity.
Qed.

Lemma replace_escapes (v : jsstring) (re : RegExp) :
  RegExp_new escape_pattern (str "g") = Ok re ->
  replace v re escape_template = escaped v.
Proof.
  rewrite escape_regexp_compiles. intros [= <-].
  unfold replace. now apply escape_scan.
Qed.

(** *** The parser on an escaped literal *)

Lemma feed_app (p : parser) (a b : jsstring) :
  feed p (a ++ b) = try p' := feed p a in feed p' b.
Proof.
  revert p. induction a as [|c a IH]; intros p; cbn [feed app rbind].
  - reflexivity.
  - destruct (step p c); cbn [rbind]; auto.
Qed.

(** An escaped character is read as one literal character. *)
Lemma feed_escaped_char (c : ascii) (p : parser) :
  literal_mode (p_mode p) ->
  feed p (if is_meta c then ["\"%char; c] else [c])
  = Ok (push_term (Char c) Atom p).
Proof.
  destruct p as [m top stack n]. cbn [p_mode].
  intros [-> | ->]; each_char c; reflexivity.
Qed.

Lemma feed_escaped (v : jsstring) :
  forall p : parser,
    literal_mode (p_mode p) ->
    exists p',
      feed p (escaped v) = Ok p'
      /\ literal_mode (p_mode p')
      /\ p_stack p' = p_stack p
      /\ p_groups p' = p_groups p
      /\ f_group (p_top p') = f_group (p_top p)
      /\ f_alts (p_top p') = f_alts (p_top p)
      /\ f_terms (p_top p') = rev (map Char v) ++ f_terms (p_top p).
Proof.
  induction v as [|c v IH]; intros p Hm.
  - exists p. now repeat split.
  - change (escaped (c :: v))
      with ((if is_meta c then ["\"%char; c] else [c]) ++ escaped v).
    rewrite feed_app, feed_escaped_char by assumption. cbn [rbind].
    destruct (IH (push_term (Char c) Atom p)) as (p' & -> & ? & ? & ? & ? & ? & Ht).
    { now left. }
    exists p'. repeat split; try assumption.
    rewrite Ht. cbn [push_term p_top add_term f_terms map rev].
    now rewrite <- app_assoc.
Qed.

Lemma mk_seq_literal (v : jsstring) :
  mk_seq (rev (map Char v)) = literal v.
Proof.
  unfold mk_seq, literal. rewrite <- fold_left_rev_right, rev_involutive.
  induction v as [|c v IH]; cbn; [reflexivity | now rewrite IH].
Qed.

(** However the value reads, the pattern built from its escaped form
    compiles, to one capturing group around the literal. *)
Lemma compile_escaped (v : jsstring) :
  compile (str "(" ++ escaped v ++ str ")")
  = Ok (Seq (Group 1 (literal v)) Empty, 1).
Proof.
  unfold compile. change (str "(") with ["("%char]. cbn [app feed].
  change (step initial "("%char) with
    (Ok {| p_mode := AfterOpen; p_top := new_frame 1;
           p_stack := [new_frame 0]; p_groups := 1 |}).
  cbn [rbind]. rewrite feed_app.
  destruct (feed_escaped v {| p_mode := AfterOpen; p_top := new_frame 1;
                              p_stack := [new_frame 0]; p_groups := 1 |})
    as (p' & -> & Hm & Hs & Hg & Hfg & Hfa & Hft).
  { now right. }
  cbn [rbind p_stack p_groups p_top new_frame f_group f_alts f_terms] in *.
  change (str ")") with [")"%char]. cbn [feed].
  assert (Hstep : step p' ")"%char =
            Ok {| p_mode := Normal;
                  p_top := add_term (Group 1 (literal v)) Atom (new_frame 0);
                  p_stack := []; p_groups := 1 |}).
  { destruct p' as [m top stack n]. cbn [p_mode p_stack p_groups p_top] in *.
    subst stack n.
    assert (Hc : close_frame top = literal v).
    { unfold close_frame. rewrite Hfa, Hft, app_nil_r. cbn [mk_alt fold_left].
      apply mk_seq_literal. }
    destruct Hm as [-> | ->]; cbn; now rewrite Hfg, Hc. }
  rewrite Hstep. reflexivity.
Qed.

Lemma RegExp_new_escaped (v : jsstring) :
  RegExp_new (str "(" ++ escaped v ++ str ")") (str "gi")
  = Ok (literal_regexp v).
Proof.
  unfold RegExp_new. change (str "gi") with ["g"%char; "i"%char].
  cbn [parse_flags]. cbn -[compile str escaped]. 
  rewrite compile_escaped. reflexivity.
Qed.

(** *** The matcher on a literal *)

Lemma matcher_literal (v : jsstring) :
  forall (st : mstate) (k : mstate -> option mstate),
    matcher true (literal v) st k =
    if ci_prefix v (m_rest st) then k (shift (length v) st) else None.
Proof.
  induction v as [|c v IH]; intros [idx rest caps] k.
  - cbn. unfold shift. cbn. now rewrite drop_0.
  - cbn [literal fold_right matcher m_rest ci_prefix]. fold (literal v).
    destruct rest as [|d rest]; [reflexivity|].
    destruct (same_char true c d); cbn [andb]; [|reflexivity].
    rewrite IH. cbn [advance m_rest m_idx m_caps tail].
    destruct (ci_prefix v rest); [|reflexivity].
    f_equal. unfold shift. cbn [m_idx m_rest m_caps length drop].
    f_equal. cbn. lia.
Qed.

Lemma ci_prefix_length (v s : jsstring) :
  ci_prefix v s = true -> length v <= length s.
Proof.
  revert s. induction v as [|a v IH]; intros [|b s]; cbn; try lia; try discriminate.
  intros H. apply andb_true_iff in H as [_ H]. apply IH in H. lia.
Qed.

Lemma match_at_literal (v : jsstring) (idx : nat) (rest : jsstring) :
  match_at (literal_regexp v) idx rest =
  if ci_prefix v rest
  then Some {| mr_index := idx;
               mr_text := take (length v) rest;
               mr_caps := <[1 := take (length v) rest]> ∅ |}
  else None.
Proof.
  unfold match_at, literal_regexp.
  cbn [re_flags re_ast ignoreCase matcher].
  rewrite matcher_literal. cbn [m_rest].
  destruct (ci_prefix v rest); [|reflexivity].
  cbn [shift set_capture m_idx m_rest m_caps].
  replace (length v + idx - idx) with (length v) by lia.
  reflexivity.
Qed.

(** *** The replacement templates *)

Lemma expand_plain (g : nat) (input : jsstring) (m : match_result)
    (pre t : jsstring) :
  no_dollar pre = true ->
  expand g input m (pre ++ t) = pre ++ expand g input m t.
Proof.
  induction pre as [|c pre IH]; cbn [no_dollar forallb app]; intros H.
  - reflexivity.
  - apply andb_true_iff in H as [Hc H].
    cbn [expand]. rewrite Hc. now rewrite IH.
Qed.

Lemma expand_group_one (input : jsstring) (m : match_result) :
  expand 1 input m (str "$1</span>") = capture m 1 ++ str "</span>".
Proof. reflexivity. Qed.

Lemma no_dollar_app (a b : jsstring) :
  no_dollar (a ++ b) = no_dollar a && no_dollar b.
Proof. apply forallb_app. Qed.

Lemma color_of_cases (label : string) :
  color_of label = str "#f97316" \/ color_of label = str "#60a5fa"
  \/ color_of label = str "#22d3ee" \/ color_of label = str "#a78bfa".
Proof.
  unfold color_of, colorMap.
  rewrite !lookup_insert, lookup_empty.
  repeat case_decide; cbn [default]; auto.
Qed.

Lemma color_of_no_dollar (label : string) : no_dollar (color_of label) = true.
Proof.
  destruct (color_of_cases label) as [-> | [-> | [-> | ->]]]; reflexivity.
Qed.

Lemma entity_open_no_dollar (color : jsstring) :
  no_dollar color = true -> no_dollar (entity_open color) = true.
Proof.
  intros H. unfold entity_open. rewrite !no_dollar_app, H. reflexivity.
Qed.

(** The opening tags of the source's templates are those of the styled
    spans. *)
Lemma entity_open_span (color w : jsstring) :
  entity_open color ++ w ++ str "</span>" = entity_wrap color w.
Proof.
  unfold entity_open, entity_wrap, span, entity_style, dquote.
  now rewrite <- !app_assoc.
Qed.

Lemma family_open_span (w : jsstring) :
  family_open ++ w ++ str "</span>" = family_wrap w.
Proof. reflexivity. Qed.

Lemma expand_entity_template (color input : jsstring) (m : match_result) :
  no_dollar color = true ->
  expand 1 input m (entity_template color) =
  entity_wrap color (capture m 1).
Proof.
  intros H. unfold entity_template.
  rewrite expand_plain by now apply entity_open_no_dollar.
  rewrite expand_group_one. apply entity_open_span.
Qed.

Lemma expand_family_template (input : jsstring) (m : match_result) :
  expand 1 input m family_template = family_wrap (capture m 1).
Proof.
  unfold family_template.
  rewrite expand_plain by reflexivity.
  rewrite expand_group_one. apply family_open_span.
Qed.

(** *** A replacement pass with a literal pattern *)

Lemma capture_literal (idx : nat) (w : jsstring) :
  capture {| mr_index := idx; mr_text := w; mr_caps := <[1 := w]> ∅ |} 1 = w.
Proof. unfold capture. cbn [mr_caps]. now rewrite lookup_insert_eq. Qed.

Lemma length_take_prefix (v s : jsstring) :
  ci_prefix v s = true -> length (take (length v) s) = length v.
Proof.
  intros H. apply ci_prefix_length in H. rewrite length_take. lia.
Qed.

Lemma replace_scan_literal (v tpl input : jsstring)
    (wrap : jsstring -> jsstring) :
  (forall m, expand 1 input m tpl = wrap (capture m 1)) ->
  forall (rest : jsstring) (idx skip : nat),
    replace_scan (literal_regexp v) tpl input idx rest skip true
    = render wrap (occurrences v rest skip).
Proof.
  intros Htpl. induction rest as [|c rest IH]; intros idx skip.
  - destruct skip as [|skip]; [|reflexivity].
    cbn [replace_scan occurrences]. rewrite match_at_literal.
    destruct (ci_prefix v []); [|reflexivity].
    cbn [re_groups literal_regexp]. rewrite Htpl, capture_literal.
    cbn [render flat_map]. reflexivity.
  - destruct skip as [|skip].
    + cbn [replace_scan occurrences]. rewrite match_at_literal.
      destruct (ci_prefix v (c :: rest)) eqn:Hp.
      * cbn [re_groups literal_regexp mr_text re_flags global].
        rewrite Htpl, capture_literal, length_take_prefix by assumption.
        cbn [render flat_map]. f_equal.
        destruct (length v) as [|n]; [|apply IH].
        cbn [flat_map app]. f_equal. apply IH.
      * cbn [render flat_map app]. f_equal. apply IH.
    + cbn [replace_scan occurrences]. apply IH.
Qed.

(** One entity value: the escaping cannot fail, the pattern compiles, and
    the pass wraps the literal occurrences of the value. *)
Lemma highlight_value_literal (label : string) (html v : jsstring) :
  highlight_value label html v
  = Ok (wrap_all (entity_wrap (color_of label)) v html).
Proof.
  unfold highlight_value. rewrite escape_regexp_compiles. cbn [rbind].
  rewrite (replace_escapes v) by apply escape_regexp_compiles.
  rewrite RegExp_new_escaped. cbn [rbind]. f_equal.
  unfold replace, wrap_all. apply replace_scan_literal.
  intros m. apply expand_entity_template, color_of_no_dollar.
Qed.

Lemma forEach_total {A} (f : jsstring -> A -> result jsstring)
    (g : jsstring -> A -> jsstring) :
  (forall html x, f html x = Ok (g html x)) ->
  forall (l : list A) (html : jsstring),
    forEach f l html = Ok (fold_left g l html).
Proof.
  intros H. induction l as [|x l IH]; intros html; cbn [forEach fold_left].
  - reflexivity.
  - rewrite H. cbn [rbind]. apply IH.
Qed.

Lemma highlight_entry_literal (html : jsstring) (entry : string * list jsstring) :
  highlight_entry html entry
  = Ok (fold_left
          (fun html v => wrap_all (entity_wrap (color_of (fst entry))) v html)
          (snd entry) html).
Proof.
  unfold highlight_entry. apply forEach_total.
  intros h v. apply highlight_value_literal.
Qed.

Lemma family_regexp_compiles :
  RegExp_new (str "(family)") (str "gi") = Ok (literal_regexp (str "family")).
Proof. reflexivity. Qed.

Lemma family_pass (html : jsstring) :
  replace html (literal_regexp (str "family")) family_template
  = wrap_all family_wrap (str "family") html.
Proof.
  unfold replace, wrap_all. apply replace_scan_literal.
  intros m. apply expand_family_template.
Qed.

(** With an entities mapping present, [highlightText] is the entity passes
    followed by the "family" pass, and it does not throw. *)
Lemma highlightText_present (st : Dashboard.state)
    (ents : list (string * list jsstring)) (raw : jsstring) :
  Dashboard.data st ≫= Dashboard.entities = Some ents ->
  highlightText st raw
  = Ok (wrap_all family_wrap (str "family") (entity_passes ents raw)).
Proof.
  intros H. unfold highlightText. rewrite H.
  rewrite (forEach_total highlight_entry
             (fun html entry =>
                fold_left
                  (fun html v => wrap_all (entity_wrap (color_of (fst entry))) v html)
                  (snd entry) html))
    by apply highlight_entry_literal.
  cbn [rbind]. rewrite family_regexp_compiles. cbn [rbind].
  now rewrite family_pass.
Qed.

End Engine.

(** ** What a literal pass wraps *)

Section Occurrences.

Import JS RegExp Highlighter Reference.

Local Open Scope nat_scope.

(** The lower case of a character is determined by its upper case, and
    its upper case by its lower case. *)
Lemma lower_of_upper_code :
  exists g : N -> ascii, forall c : ascii, lower_char c = g (upper_code c).
Proof.
  exists (fun n => if (n =? 924)%N then ascii_of_N 181
                   else if (n =? 376)%N then ascii_of_N 255
                   else lower_char (ascii_of_N n)).
  intros c. each_char c; reflexivity.
Qed.

Lemma upper_code_lower (c : ascii) : upper_code (lower_char c) = upper_code c.
Proof. each_char c; reflexivity. Qed.

(** Two characters are the same under the [i] flag exactly when they have
    the same lower case. *)
Lemma same_char_iff (a b : ascii) :
  same_char true a b = true <-> lower_char a = lower_char b.
Proof.
  unfold same_char, canon. rewrite N.eqb_eq. split; intros H.
  - destruct lower_of_upper_code as [g Hg]. now rewrite !Hg, H.
  - rewrite <- (upper_code_lower a), <- (upper_code_lower b). now rewrite H.
Qed.

Lemma ci_prefix_iff (v s : jsstring) :
  ci_prefix v s = true <->
  exists w t, s = w ++ t /\ toLowerCase w = toLowerCase v.
Proof.
  revert s. induction v as [|a v IH]; intros s.
  - cbn. split; [|reflexivity]. intros _. now exists [], s.
  - destruct s as [|b s].
    + cbn. split; [discriminate|]. intros (w & t & H & Hw).
      destruct w; discriminate.
    + cbn [ci_prefix]. rewrite andb_true_iff, same_char_iff, IH. split.
      * intros (Hab & w & t & -> & Hw). exists (b :: w), t.
        split; [reflexivity|]. unfold toLowerCase in *. cbn [map].
        now rewrite Hab, <- Hw.
      * intros (w & t & H & Hw). destruct w as [|b' w]; [discriminate|].
        injection H as -> ->. injection Hw as Hb Hw.
        split; [now symmetry|]. now exists w, t.
Qed.

Lemma take_prefix_lower (v s : jsstring) :
  ci_prefix v s = true -> toLowerCase (take (length v) s) = toLowerCase v.
Proof.
  intros H. apply ci_prefix_iff in H as (w & t & -> & Hw).
  assert (Hl : length w = length v).
  { apply (f_equal (@length _)) in Hw. unfold toLowerCase in Hw.
    now rewrite !length_map in Hw. }
  rewrite <- Hl, take_app_length. exact Hw.
Qed.

(** The segments are a cutting of the text: nothing is lost or altered. *)
Lemma erase_occurrences (v : jsstring) :
  forall (s : jsstring) (skip : nat),
    erase (occurrences v s skip) = drop skip s.
Proof.
  induction s as [|c s IH]; intros skip.
  - destruct skip; cbn [occurrences]; [|reflexivity].
    destruct (ci_prefix v []); [|reflexivity].
    cbn. now rewrite take_nil.
  - destruct skip as [|skip]; cbn [occurrences drop]; [|apply IH].
    destruct (ci_prefix v (c :: s)).
    + unfold erase. cbn [render flat_map]. fold (erase).
      destruct (length v) as [|n].
      * cbn. f_equal. apply (IH 0).
      * cbn [take]. cbn [app]. f_equal.
        fold (erase (occurrences v s n)). rewrite IH. apply take_drop.
    + unfold erase. cbn [render flat_map app]. f_equal. apply (IH 0).
Qed.

(** Every wrapped segment is the value, up to case. *)
Lemma hits_are_occurrences (v : jsstring) :
  forall (s : jsstring) (skip : nat) (w : jsstring),
    In (Hit w) (occurrences v s skip) -> toLowerCase w = toLowerCase v.
Proof.
  induction s as [|c s IH]; intros skip w.
  - destruct skip; cbn [occurrences]; [|intros []].
    destruct (ci_prefix v []) eqn:Hp; [|intros []].
    intros [[= <-] | []]. now apply take_prefix_lower.
  - destruct skip as [|skip]; cbn [occurrences]; [|apply IH].
    destruct (ci_prefix v (c :: s)) eqn:Hp.
    + intros [[= <-] | H]; [now apply take_prefix_lower|].
      destruct (length v).
      * destruct H as [[=] | H]. now apply IH in H.
      * now apply IH in H.
    + intros [[=] | H]. now apply IH in H.
Qed.

Lemma ci_prefix_nil_nonempty (v : jsstring) :
  v <> [] -> ci_prefix v [] = false.
Proof. destruct v; [congruence | reflexivity]. Qed.

Lemma occurrences_skip (v : jsstring) :
  v <> [] ->
  forall (s : jsstring) (skip : nat),
    occurrences v s skip = occurrences v (drop skip s) 0.
Proof.
  intros Hv. induction s as [|c s IH]; intros [|skip]; try reflexivity.
  - cbn. now rewrite ci_prefix_nil_nonempty.
  - cbn [occurrences drop]. apply IH.
Qed.

(** What remains of the segments after any number of them is again the
    cutting of a text. *)
Lemma occurrences_suffix (v : jsstring) :
  v <> [] ->
  forall (A B : list segment) (s : jsstring),
    occurrences v s 0 = A ++ B -> exists s', B = occurrences v s' 0.
Proof.
  intros Hv. induction A as [|x A IH]; intros B s H.
  - now exists s.
  - destruct s as [|c s]; cbn [occurrences] in H.
    + rewrite ci_prefix_nil_nonempty in H by assumption. discriminate H.
    + destruct (ci_prefix v (c :: s)).
      * destruct (length v) as [|n] eqn:Hl.
        { destruct v; [congruence | discriminate Hl]. }
        injection H as _ H. rewrite occurrences_skip in H by assumption.
        now apply IH in H.
      * injection H as _ H. now apply IH in H.
Qed.

(** A run of plain characters at the head of the segments: no position in
    the run starts an occurrence. *)
Lemma plain_run_no_prefix (v : jsstring) :
  v <> [] ->
  forall (plains B : list segment) (s : jsstring),
    occurrences v s 0 = plains ++ B ->
    Forall is_plain plains ->
    exists t, s = erase plains ++ t
      /\ forall p q, erase plains = p ++ q -> q <> [] ->
                     ci_prefix v (q ++ t) = false.
Proof.
  intros Hv. induction plains as [|x plains IH]; intros B s H Hpl.
  - exists s. split; [reflexivity|]. intros p q Hpq Hq.
    destruct p; destruct q; try discriminate Hpq. congruence.
  - apply List.Forall_cons_iff in Hpl as [Hx Hpl].
    destruct x as [c|w]; [|destruct Hx].
    destruct s as [|c' s]; cbn [occurrences] in H.
    + rewrite ci_prefix_nil_nonempty in H by assumption. discriminate H.
    + destruct (ci_prefix v (c' :: s)) eqn:Hp; [discriminate H|].
      injection H as <- H.
      destruct (IH B s H Hpl) as (t & -> & Hno).
      exists t. split; [reflexivity|].
      intros p q Hpq Hq.
      change (erase (Plain c' :: plains)) with (c' :: erase plains) in Hpq.
      destruct p as [|c'' p].
      * cbn in Hpq. subst q. exact Hp.
      * injection Hpq as _ Hpq. now apply (Hno p q).
Qed.

(** No run of plain characters between two wrapped segments contains an
    occurrence of the value. *)
Lemma plain_runs_have_no_occurrence (v : jsstring) :
  v <> [] ->
  forall (s : jsstring) (A plains B : list segment),
    occurrences v s 0 = A ++ plains ++ B ->
    Forall is_plain plains ->
    ~ occurs_ci v (erase plains).
Proof.
  intros Hv s A plains B H Hpl (pre & mid & suf & Hsplit & Hmid).
  apply occurrences_suffix in H as (s' & H); [|assumption].
  symmetry in H.
  destruct (plain_run_no_prefix v Hv plains B s' H Hpl) as (t & -> & Hno).
  assert (Hq : mid ++ suf <> []).
  { intros E. apply app_eq_nil in E as [-> _].
    destruct v; [congruence | discriminate Hmid]. }
  specialize (Hno pre (mid ++ suf) Hsplit Hq).
  assert (Ht : ci_prefix v ((mid ++ suf) ++ t) = true).
  { apply ci_prefix_iff. exists mid, (suf ++ t).
    split; [now rewrite app_assoc | assumption]. }
  congruence.
Qed.

(** *** The word "family" *)

Lemma ci_prefix_app (v s x : jsstring) :
  ci_prefix v s = true -> ci_prefix v (s ++ x) = true.
Proof.
  revert s. induction v as [|a v IH]; intros [|b s]; cbn; try easy.
  intros H. apply andb_true_iff in H as [-> H]. cbn. now apply IH.
Qed.

Lemma ci_prefix_drop (v p s : jsstring) :
  ci_prefix v (p ++ s) = true -> ci_prefix (drop (length p) v) s = true.
Proof.
  revert v. induction p as [|b p IH]; intros v H.
  - now rewrite drop_0.
  - destruct v as [|a v]; [now destruct s|].
    cbn in H. apply andb_true_iff in H as [_ H]. cbn. now apply IH.
Qed.

(** "family" has no border: an occurrence cannot begin inside the text
    before another occurrence and run into it. *)
Lemma family_no_straddle (p w t : jsstring) :
  0 < length p < 6 ->
  toLowerCase w = str "family" ->
  ci_prefix (str "family") (p ++ w ++ t) = false.
Proof.
  intros Hlen Hw. destruct (ci_prefix _ _) eqn:H; [exfalso|reflexivity].
  apply ci_prefix_drop in H.
  destruct w as [|w1 w]; [discriminate Hw|]. injection Hw as Hw1 _.
  destruct (length p) as [|[|[|[|[|[|n]]]]]]; try lia;
    cbn in H; apply andb_true_iff in H as [H _];
    apply same_char_iff in H; rewrite Hw1 in H; discriminate H.
Qed.

Lemma family_split (pre w suf : jsstring) :
  toLowerCase w = str "family" ->
  forall skip : nat,
    skip <= length pre ->
    occurrences (str "family") (pre ++ w ++ suf) skip =
    occurrences (str "family") pre skip ++ Hit w :: occurrences (str "family") suf 0.
Proof.
  intros Hw.
  assert (Hlw : length w = 6).
  { apply (f_equal (@length _)) in Hw. unfold toLowerCase in Hw.
    now rewrite length_map in Hw. }
  assert (Hpw : forall x, ci_prefix (str "family") (w ++ x) = true).
  { intros x. apply ci_prefix_iff. now exists w, x. }
  induction pre as [|c pre IH]; intros skip Hskip.
  - cbn in Hskip. assert (skip = 0) as -> by lia. cbn [app].
    destruct w as [|w1 w]; [discriminate Hlw|].
    cbn [occurrences app]. change (w1 :: w ++ suf) with ((w1 :: w) ++ suf).
    rewrite Hpw. change (length (str "family")) with 6.
    pose proof (take_app_length (w1 :: w) suf) as Ht. rewrite Hlw in Ht.
    rewrite Ht. cbn [app]. f_equal.
    rewrite occurrences_skip by discriminate.
    cbn in Hlw. injection Hlw as Hlw.
    pose proof (drop_app_length w suf) as Hd. rewrite Hlw in Hd.
    now rewrite Hd.
  - destruct skip as [|skip].
    + cbn [app occurrences].
      destruct (ci_prefix (str "family") (c :: pre ++ w ++ suf)) eqn:Hp.
      * destruct (Nat.lt_ge_cases (length (c :: pre)) 6) as [Hlt | Hge].
        { assert (Hn : ci_prefix (str "family") ((c :: pre) ++ w ++ suf) = false).
          { apply family_no_straddle; [cbn in *; lia | assumption]. }
          cbn [app] in Hn. congruence. }
        assert (Hp' : ci_prefix (str "family") (c :: pre) = true).
        { apply ci_prefix_iff in Hp as (x & t & Hx & Hlx).
          apply ci_prefix_iff.
          assert (Hl : length x = 6).
          { apply (f_equal (@length _)) in Hlx. unfold toLowerCase in Hlx.
            now rewrite !length_map in Hlx. }
          exists x, (drop 6 (c :: pre)). split; [|assumption].
          rewrite <- (take_drop 6 (c :: pre)) at 1. f_equal.
          change (c :: pre ++ w ++ suf) with ((c :: pre) ++ w ++ suf) in Hx.
          apply (f_equal (take 6)) in Hx.
          rewrite take_app_le in Hx by assumption.
          rewrite Hx. pose proof (take_app_length x t) as Ht.
          now rewrite Hl in Ht. }
        rewrite Hp'. change (length (str "family")) with 6.
        cbn [app]. f_equal.
        { f_equal. change (c :: pre ++ w ++ suf) with ((c :: pre) ++ w ++ suf).
          now rewrite take_app_le. }
        apply IH. cbn in Hge. lia.
      * destruct (ci_prefix (str "family") (c :: pre)) eqn:Hp'.
        { apply (ci_prefix_app _ _ (w ++ suf)) in Hp'.
          cbn [app] in Hp'. congruence. }
        cbn [app]. f_equal. apply IH. lia.
    + cbn [app occurrences]. apply IH. cbn in Hskip. lia.
Qed.

Lemma render_app (wrap : jsstring -> jsstring) (a b : list segment) :
  render wrap (a ++ b) = render wrap a ++ render wrap b.
Proof. apply flat_map_app. Qed.

(** Every occurrence of "family" is wrapped: the pass works on the text
    before an occurrence, wraps it, and works on the text after it. *)
Lemma family_pass_split (pre w suf : jsstring) :
  toLowerCase w = str "family" ->
  wrap_all family_wrap (str "family") (pre ++ w ++ suf) =
  wrap_all family_wrap (str "family") pre ++ family_wrap w
  ++ wrap_all family_wrap (str "family") suf.
Proof.
  intros Hw. unfold wrap_all.
  rewrite (family_split pre w suf Hw 0) by lia.
  rewrite render_app. cbn [render flat_map]. reflexivity.
Qed.

(** *** A value that does not occur *)

Lemma occurrences_absent (v : jsstring) :
  v <> [] ->
  forall html : jsstring,
    ~ occurs_ci v html -> occurrences v html 0 = map Plain html.
Proof.
  intros Hv. induction html as [|c html IH]; intros Hno; cbn [occurrences map].
  - now rewrite ci_prefix_nil_nonempty.
  - destruct (ci_prefix v (c :: html)) eqn:Hp.
    + exfalso. apply Hno. apply ci_prefix_iff in Hp as (w & t & Hs & Hw).
      now exists [], w, t.
    + f_equal. apply IH. intros (pre & mid & suf & Hs & Hm).
      apply Hno. exists (c :: pre), mid, suf. now rewrite Hs.
Qed.

Lemma render_plain (wrap : jsstring -> jsstring) (html : jsstring) :
  render wrap (map Plain html) = html.
Proof.
  unfold render. induction html as [|c html IH]; cbn; [reflexivity | now f_equal].
Qed.

Lemma wrap_all_absent (wrap : jsstring -> jsstring) (v html : jsstring) :
  v <> [] -> ~ occurs_ci v html -> wrap_all wrap v html = html.
Proof.
  intros Hv Hno. unfold wrap_all.
  rewrite occurrences_absent by assumption. apply render_plain.
Qed.

Lemma value_passes_absent (color raw : jsstring) (vals : list jsstring) :
  (forall v, In v vals -> v <> [] /\ ~ occurs_ci v raw) ->
  fold_left (fun html v => wrap_all (entity_wrap color) v html) vals raw = raw.
Proof.
  induction vals as [|v vals IH]; cbn [fold_left]; intros Hv; [reflexivity|].
  destruct (Hv v (or_introl eq_refl)) as [Hne Hno].
  rewrite wrap_all_absent by assumption.
  apply IH. intros u Hu. apply Hv. now right.
Qed.

Lemma entity_passes_absent (ents : list (string * list jsstring)) (raw : jsstring) :
  (forall entry v, In entry ents -> In v (snd entry) ->
                   v <> [] /\ ~ occurs_ci v raw) ->
  entity_passes ents raw = raw.
Proof.
  unfold entity_passes.
  induction ents as [|entry ents IH]; cbn [fold_left]; intros Hvals;
    [reflexivity|].
  rewrite value_passes_absent.
  - apply IH. intros e v He. apply Hvals. now right.
  - intros v Hv. apply (Hvals entry); [now left | exact Hv].
Qed.

Lemma not_occurs_by_test (v s : jsstring) :
  includes (toLowerCase s) (toLowerCase v) = false -> ~ occurs_ci v s.
Proof.
  intros H Hocc. apply includes_lower_iff in Hocc. congruence.
Qed.

End Occurrences.

(** ** The highlighter *)

Section Highlighting.

Import JS RegExp Highlighter Reference Scenarios.

Local Open Scope nat_scope.

(** C6. Whatever characters an entity value contains, the escaping pass
    puts a backslash before each metacharacter, the pattern built from the
    result compiles to the literal value in one capturing group, and the
    replacement puts the styled span of the entity type around the
    leftmost non-overlapping case-insensitive occurrences of the value in
    the string it is applied to: the segments are a cutting of that
    string, every wrapped segment is the value up to case, and no run of
    unwrapped characters contains an occurrence.  [highlightText] as a
    whole never throws, and with an entities mapping present it is these
    passes, value after value, followed by the "family" pass.  The colour
    of the span is that of the entity type, the fallback colour for types
    without one.  (The label of the entity type is not the name of a
    member of [Object.prototype], so that [colorMap[label]] is a colour or
    undefined.) *)
Theorem highlight_escapes_entity_values (label : string) (v html : jsstring) :
  Object_prototype_has label = false ->
  (exists meta,
      RegExp_new escape_pattern (str "g") = Ok meta
      /\ replace v meta escape_template = escaped v)
  /\ RegExp_new (str "(" ++ escaped v ++ str ")") (str "gi")
     = Ok (literal_regexp v)
  /\ highlight_value label html v
     = Ok (render (entity_wrap (color_of label)) (occurrences v html 0))
  /\ erase (occurrences v html 0) = html
  /\ (forall w, In (Hit w) (occurrences v html 0) ->
                toLowerCase w = toLowerCase v)
  /\ (v <> [] ->
      forall A plains B,
        occurrences v html 0 = A ++ plains ++ B ->
        Forall is_plain plains ->
        ~ occurs_ci v (erase plains))
  /\ (forall (st : Dashboard.state) (raw : jsstring),
        exists out, highlightText st raw = Ok out)
  /\ (forall (st : Dashboard.state) ents (raw : jsstring),
        Dashboard.data st ≫= Dashboard.entities = Some ents ->
        Forall (fun entry => Object_prototype_has (fst entry) = false) ents ->
        highlightText st raw
        = Ok (wrap_all family_wrap (str "family") (entity_passes ents raw)))
  /\ map color_of ["GPE"; "PERSON"; "ORG"; "DATE"; "EVENT"]%string
     = [str "#f97316"; str "#60a5fa"; str "#22d3ee"; str "#a78bfa";
        str "#a78bfa"].
Proof.
  intros _. repeat apply conj.
  - eexists. split; [apply escape_regexp_compiles|].
    apply replace_escapes, escape_regexp_compiles.
  - apply RegExp_new_escaped.
  - apply highlight_value_literal.
  - rewrite erase_occurrences. apply drop_0.
  - apply hits_are_occurrences.
  - intros Hv A plains B. now apply plain_runs_have_no_occurrence.
  - intros st raw.
    destruct (Dashboard.data st ≫= Dashboard.entities) as [ents|] eqn:E.
    + eexists. apply (highlightText_present st ents raw E).
    + exists raw. unfold highlightText. now rewrite E.
  - intros st ents raw H _. now apply highlightText_present.
  - reflexivity.
Qed.

Lemma highlight_escapes_entity_values_witness :
  highlightText punctuated_state (str "see A.B*C, not AxBBC")
  = Ok (str "see " ++ entity_wrap (str "#22d3ee") (str "A.B*C")
        ++ str ", not AxBBC")
  /\ ~ occurs_ci (str "A.B*C") (str ", not AxBBC").
Proof.
  destruct (highlight_escapes_entity_values
              "ORG" (str "A.B*C") (str "see A.B*C, not AxBBC") eq_refl)
    as (_ & _ & _ & _ & _ & Hno & _ & Hall & _).
  split.
  - rewrite (Hall punctuated_state
               [("ORG"%string, [str "A.B*C"])] _ eq_refl).
    + vm_compute. reflexivity.
    + repeat constructor.
  - apply (Hno ltac:(discriminate)
               (map Plain (str "see ") ++ [Hit (str "A.B*C")])
               (map Plain (str ", not AxBBC")) []).
    + vm_compute. reflexivity.
    + vm_compute. repeat constructor.
Defined.

(** The markup of a wrapped occurrence, written out. *)
Example entity_span_markup :
  highlight_value "ORG" (str "at Acme") (str "acme")
  = Ok (str "at <span style=" ++ ["034"%char]
        ++ str "background:#22d3ee30;color:#22d3ee;border:1px solid #22d3ee60;border-radius:4px;padding:0 3px;font-weight:600;"
        ++ ["034"%char] ++ str ">Acme</span>").
Proof. vm_compute. reflexivity. Qed.

(** Matching ignores case: the value "Jennifer Walsh" wraps
    "jennifer walsh". *)
Example highlight_ignores_case :
  highlight_value "PERSON" (str "mail jennifer walsh now") (str "Jennifer Walsh")
  = Ok (str "mail " ++ entity_wrap (str "#60a5fa") (str "jennifer walsh")
        ++ str " now").
Proof. vm_compute. reflexivity. Qed.

(** Matching ignores the case of the accented letters of Latin-1 as well:
    the value "CAF" followed by the capital E with acute (201) wraps "caf"
    followed by the small one (233); the sharp s (223) matches only
    itself. *)
Example highlight_ignores_case_latin1 :
  highlight_value "ORG" (str "a caf" ++ ["233"%char])
                  (str "CAF" ++ ["201"%char])
  = Ok (str "a " ++ entity_wrap (str "#22d3ee") (str "caf" ++ ["233"%char]))
  /\ same_char true "223"%char "S"%char = false
  /\ toLowerCase (str "CAF" ++ ["201"%char]) = str "caf" ++ ["233"%char].
Proof. vm_compute. repeat split. Qed.

(** A later pass works on the HTML the earlier passes produced: after
    "Bob" has been wrapped, the value "span" occurs in the markup, twice,
    and is wrapped there. *)
Example later_pass_reads_markup :
  let color := str "#60a5fa" in
  entity_passes [("PERSON"%string, [str "Bob"; str "span"])] (str "Bob")
  = str "<" ++ entity_wrap color (str "span")
    ++ skipn 5 (entity_open color) ++ str "Bob</"
    ++ entity_wrap color (str "span") ++ str ">".
Proof. vm_compute. reflexivity. Qed.

(** Without the escaping the same value is read as a pattern: it misses
    the verbatim text and wraps a different one. *)
Example unescaped_value_is_a_pattern :
  (try re := RegExp_new (str "(A.B*C)") (str "gi") in
   Ok (replace (str "see A.B*C, not AxBBC") re (str "[$1]")))
  = Ok (str "see A.B*C, not [AxBBC]").
Proof. reflexivity. Qed.

(** Without the escaping a value can make the constructor throw. *)
Example unescaped_value_can_throw :
  RegExp_new (str "(*)") (str "gi") = SyntaxError
  /\ RegExp_new (str "(C++ (beta)") (str "gi") = SyntaxError
  /\ RegExp_new (str "(" ++ escaped (str "*") ++ str ")") (str "gi")
     = Ok (literal_regexp (str "*")).
Proof. repeat split. Qed.

(** C7 (as the code has it). Without a record, or with a record that has
    no entities mapping, every text comes back unchanged.  Whenever the
    record carries an entities mapping, even an empty one, the result is
    the entity passes followed by the "family" pass, and that pass wraps
    every case-insensitive occurrence of "family" in the text it receives
    with the alert style; that text is the input itself when no entity
    value occurs in it, so every occurrence of the input is wrapped then;
    and when the text the pass receives has no occurrence it is returned
    as it is. *)
Theorem highlightText_family_pass (st : Dashboard.state) (raw : jsstring) :
  (Dashboard.data st ≫= Dashboard.entities = None ->
   highlightText st raw = Ok raw)
  /\ (forall ents,
        Dashboard.data st ≫= Dashboard.entities = Some ents ->
        Forall (fun entry => Object_prototype_has (fst entry) = false) ents ->
        highlightText st raw
        = Ok (wrap_all family_wrap (str "family") (entity_passes ents raw))
        /\ (forall pre w suf,
              entity_passes ents raw = pre ++ w ++ suf ->
              toLowerCase w = str "family" ->
              highlightText st raw
              = Ok (wrap_all family_wrap (str "family") pre ++ family_wrap w
                    ++ wrap_all family_wrap (str "family") suf))
        /\ ((forall entry v, In entry ents -> In v (snd entry) ->
                             ~ occurs_ci v raw) ->
            forall pre w suf,
              raw = pre ++ w ++ suf ->
              toLowerCase w = str "family" ->
              highlightText st raw
              = Ok (wrap_all family_wrap (str "family") pre ++ family_wrap w
                    ++ wrap_all family_wrap (str "family") suf))
        /\ (~ occurs_ci (str "family") (entity_passes ents raw) ->
            highlightText st raw = Ok (entity_passes ents raw))).
Proof.
  split.
  - intros H. unfold highlightText. now rewrite H.
  - intros ents H _. pose proof (highlightText_present st ents raw H) as Hp.
    repeat apply conj.
    + exact Hp.
    + intros pre w suf Hsplit Hw. rewrite Hp, Hsplit.
      now rewrite family_pass_split.
    + intros Hvals pre w suf Hsplit Hw. rewrite Hp.
      rewrite entity_passes_absent.
      * rewrite Hsplit. now rewrite family_pass_split.
      * intros entry v He Hv. split; [|now apply (Hvals entry)].
        intros ->. apply (Hvals entry [] He Hv). now exists [], [], raw.
    + intros Hno. rewrite Hp. f_equal.
      apply wrap_all_absent; [discriminate | assumption].
Qed.

Lemma highlightText_family_pass_witness :
  highlightText scenario_state (str "my Family")
  = Ok (str "my " ++ family_wrap (str "Family"))
  /\ highlightText bare_state (str "my Family") = Ok (str "my Family").
Proof.
  destruct (highlightText_family_pass scenario_state (str "my Family"))
    as (_ & H).
  destruct (H [] eq_refl (List.Forall_nil _)) as (_ & _ & H3 & _).
  destruct (highlightText_family_pass bare_state (str "my Family"))
    as (H0 & _).
  split.
  - rewrite (H3 ltac:(intros entry v []) (str "my ") (str "Family") []);
      reflexivity.
  - apply H0. reflexivity.
Defined.

(** The markup of the alert style, written out. *)
Example family_span_markup :
  highlightText scenario_state (str "my Family")
  = Ok (str "my <span style=" ++ ["034"%char]
        ++ str "background:#f8717140;color:#f87171;border:1px solid #f8717160;border-radius:4px;padding:0 3px;font-weight:600;"
        ++ ["034"%char] ++ str ">Family</span>").
Proof. vm_compute. reflexivity. Qed.

(** C7 fails as stated: with no record, or with a record that has no
    entities mapping, the text comes back unchanged although it contains
    "family", which the family pass would have wrapped; and an occurrence
    of the input that an entity span has cut is not wrapped either: with
    the entity value "fam" the text "my family" gets the entity span
    around "fam" and no family span. *)
Lemma family_not_highlighted_without_entities :
  highlightText typing_state (str "my family") = Ok (str "my family")
  /\ highlightText bare_state (str "my family") = Ok (str "my family")
  /\ wrap_all family_wrap (str "family") (str "my family")
     = str "my " ++ family_wrap (str "family")
  /\ str "my family" <> str "my " ++ family_wrap (str "family")
  /\ highlightText split_state (str "my family")
     = Ok (str "my " ++ entity_wrap (str "#60a5fa") (str "fam") ++ str "ily")
  /\ includes (str "my " ++ entity_wrap (str "#60a5fa") (str "fam") ++ str "ily")
              family_style = false.
Proof. repeat split. discriminate. Qed.

End Highlighting.

(** ** The count-up animator *)

Section CountUpFacts.

Import JS CountUp.

(** Running the effect with the trigger on always adds a schedule; nothing
    in the hook ever removes one that has not completed. *)
Lemma effect_adds_schedule (target : Q) (h : hook) :
  active_schedules (effect target true h) = S (active_schedules h).
Proof.
  unfold active_schedules, effect, requestAnimationFrame. cbn.
  rewrite length_app. cbn. lia.
Qed.

Lemma falsy_nonzero (s : Q) : ~ (s == 0)%Q -> falsy (Some s) = false.
Proof.
  intros H. cbn [falsy]. destruct (Qeq_bool s 0) eqn:E; [|reflexivity].
  apply Qeq_bool_iff in E. contradiction.
Qed.

(** One frame of a hook whose only schedule has already taken its start
    time. *)
Lemma frame_running (v : Z) (d target s ts : Q) :
  ~ (s == 0)%Q ->
  frame ts {| current := v; duration := d;
              frames := [{| c_target := target; c_start := Some s |}] |}
  = let p := Math_min ((ts - s) / d) 1 in
    {| current := Math_round (0 + (target - 0) * (1 - (1 - p) ^ 3));
       duration := d;
       frames := if negb (le 1 p)
                 then [{| c_target := target; c_start := Some s |}]
                 else [] |}.
Proof.
  intros Hs. unfold frame. cbn [frames fold_left current duration].
  unfold step. cbn [c_start c_target duration].
  rewrite (falsy_nonzero s Hs). cbn [nullish].
  destruct (negb (le 1 (Math_min ((ts - s) / d) 1))); reflexivity.
Qed.

(** A hook with nothing scheduled ignores animation frames. *)
Lemma settled_stays (c : Z) (d : Q) (tss : list Q) :
  run (map Frame tss) {| current := c; duration := d; frames := [] |}
  = {| current := c; duration := d; frames := [] |}.
Proof. induction tss as [|ts tss IH]; [reflexivity | exact IH]. Qed.

(** A frame at or after the end of the duration ends the animation on
    [Math.round(target)]. *)
Lemma frame_late (v : Z) (d target s ts : Q) :
  (0 < d)%Q -> ~ (s == 0)%Q -> (s + d <= ts)%Q ->
  frame ts {| current := v; duration := d;
              frames := [{| c_target := target; c_start := Some s |}] |}
  = {| current := Math_round target; duration := d; frames := [] |}.
Proof.
  intros Hd Hs Hts. rewrite frame_running by assumption. cbv zeta.
  assert (Hp : (Math_min ((ts - s) / d) 1 == 1)%Q).
  { unfold Math_min. apply Q.min_r. apply Qle_shift_div_l; [assumption | lra]. }
  assert (E : le 1 (Math_min ((ts - s) / d) 1) = true).
  { unfold le. apply Qle_bool_iff. rewrite Hp. lra. }
  rewrite E. cbn [negb]. f_equal.
  unfold Math_round. apply Qfloor_comp. rewrite Hp. ring.
Qed.

(** Any frame leaves a running animation running, or ends it on
    [Math.round(target)]. *)
Lemma frame_any (v : Z) (d target s ts : Q) :
  ~ (s == 0)%Q ->
  (exists v',
      frame ts {| current := v; duration := d;
                  frames := [{| c_target := target; c_start := Some s |}] |}
      = {| current := v'; duration := d;
           frames := [{| c_target := target; c_start := Some s |}] |})
  \/ frame ts {| current := v; duration := d;
                 frames := [{| c_target := target; c_start := Some s |}] |}
     = {| current := Math_round target; duration := d; frames := [] |}.
Proof.
  intros Hs. rewrite frame_running by assumption. cbv zeta.
  destruct (le 1 (Math_min ((ts - s) / d) 1)) eqn:E; cbn [negb].
  - right. f_equal.
    assert (Hp : (Math_min ((ts - s) / d) 1 == 1)%Q).
    { apply Qle_antisym; [apply Q.le_min_r | now apply Qle_bool_iff]. }
    unfold Math_round. apply Qfloor_comp. rewrite Hp. ring.
  - left. eexists. reflexivity.
Qed.

Lemma running_settles (d target s ts : Q) (before : list Q) :
  (0 < d)%Q -> ~ (s == 0)%Q -> (s + d <= ts)%Q ->
  forall v : Z,
    run (map Frame (before ++ [ts]))
        {| current := v; duration := d;
           frames := [{| c_target := target; c_start := Some s |}] |}
    = {| current := Math_round target; duration := d; frames := [] |}.
Proof.
  intros Hd Hs Hts. induction before as [|t before IH]; intros v.
  - cbn [app map run fold_left handle]. now apply frame_late.
  - cbn [app map run fold_left handle].
    destruct (frame_any v d target s t Hs) as [[v' ->] | ->].
    + apply IH.
    + apply settled_stays.
Qed.

(** X1. A single animation settles: whatever frames the host delivers,
    once a frame arrives at or after the end of the duration, counted from
    the first frame, the displayed value is [Math.round(target)] and
    nothing is scheduled any more, and later frames change nothing. *)
Lemma countup_settles (target d ts0 ts : Q) (before after : list Q) :
  (0 < d)%Q -> ~ (ts0 == 0)%Q -> (ts0 + d <= ts)%Q ->
  let h := run (Effect target true :: Frame ts0
                :: map Frame (before ++ ts :: after)) (mount d) in
  current h = Math_round target /\ frames h = [].
Proof.
  intros Hd H0 Hts.
  assert (Hz : ((ts0 - ts0) / d == 0)%Q) by (field; lra).
  assert (Hp0 : (Math_min ((ts0 - ts0) / d) 1 == 0)%Q).
  { unfold Math_min. rewrite Q.min_l; [exact Hz|]. rewrite Hz. lra. }
  assert (E0 : le 1 (Math_min ((ts0 - ts0) / d) 1) = false).
  { unfold le. destruct (Qle_bool _ _) eqn:E; [|reflexivity].
    apply Qle_bool_iff in E. rewrite Hp0 in E. lra. }
  assert (H1 : exists v,
             frame ts0 (effect target true (mount d))
             = {| current := v; duration := d;
                  frames := [{| c_target := target; c_start := Some ts0 |}] |}).
  { eexists. unfold frame, effect, mount, requestAnimationFrame.
    cbn [negb frames app current duration fold_left].
    unfold step. cbn [c_start falsy c_target duration setCurrent].
    rewrite E0. reflexivity. }
  destruct H1 as (v & H1).
  cbn [run fold_left handle]. rewrite H1.
  change (before ++ ts :: after) with (before ++ [ts] ++ after).
  rewrite app_assoc, map_app, fold_left_app.
  fold (run (map Frame (before ++ [ts]))
            {| current := v; duration := d;
               frames := [{| c_target := target; c_start := Some ts0 |}] |}).
  rewrite (running_settles d target ts0 ts before Hd H0 Hts).
  fold (run (map Frame after)
            {| current := Math_round target; duration := d; frames := [] |}).
  rewrite settled_stays. split; reflexivity.
Qed.

(** C8 on the code: a count-up to 50 over 1100 ms is started, two frames
    pass, and half way through the target changes to 60.  The schedule of
    the first animation is still in flight next to the new one; on the next
    frame both run (the displayed value is the new animation's 0, written
    last), and the first animation goes on to its end. *)
Theorem countup_retrigger_keeps_old_schedule :
  let h := run [Effect 50 true; Frame 16; Frame 566; Effect 60 true]
               (mount 1100) in
  current h = 44
  /\ active_schedules h = 2%nat
  /\ map c_target (frames h) = [50%Q; 60%Q]
  /\ active_schedules (run [Frame 582] h) = 2%nat
  /\ current (run [Frame 582] h) = 0
  /\ map c_target (frames (run [Frame 582; Frame 1116] h)) = [60%Q]
  /\ current (run [Frame 582; Frame 1116] h) = 52
  /\ current (run [Frame 582; Frame 1116; Frame 1682] h) = 60
  /\ active_schedules (run [Frame 582; Frame 1116; Frame 1682] h) = 0%nat.
Proof. vm_compute. repeat split. Qed.

End CountUpFacts.

(** ** The typewriter *)

Section TypewriterFacts.

Import JS Typewriter.

Local Open Scope nat_scope.

Lemma owned_mount : owned mount.
Proof.
  split.
  - intros id t H. cbn in H. now rewrite lookup_empty in H.
  - intros id H. discriminate H.
Qed.

Lemma run_cleanup_timers (h : hook) :
  owned h -> timers (run_cleanup h) = ∅.
Proof.
  intros [Hown _]. unfold run_cleanup.
  destruct (cleanup h) as [id|] eqn:Hc; cbn [timers];
    apply map_empty; intros j.
  - destruct (decide (j = id)) as [->|Hne].
    + apply lookup_delete_eq.
    + rewrite lookup_delete_ne by congruence.
      destruct (timers h !! j) as [t|] eqn:Hj; [|reflexivity].
      apply Hown in Hj. congruence.
  - destruct (timers h !! j) as [t|] eqn:Hj; [|reflexivity].
    apply Hown in Hj. congruence.
Qed.

Lemma run_cleanup_fields (h : hook) :
  cleanup (run_cleanup h) = None
  /\ next_id (run_cleanup h) = next_id h
  /\ displayed (run_cleanup h) = displayed h.
Proof. unfold run_cleanup. destruct (cleanup h) eqn:E; cbn; auto. Qed.

Lemma owned_run_cleanup (h : hook) : owned h -> owned (run_cleanup h).
Proof.
  intros H. pose proof (run_cleanup_timers h H) as Ht.
  destruct (run_cleanup_fields h) as (Hc & _ & _).
  split.
  - intros id t Hl. rewrite Ht, lookup_empty in Hl. discriminate Hl.
  - intros id Hid. congruence.
Qed.

Lemma owned_handle (h : hook) (e : event) : owned h -> owned (handle h e).
Proof.
  intros H. destruct e as [text trigger | id |]; cbn [handle].
  - unfold rerender, effect.
    pose proof (owned_run_cleanup h H) as H'.
    destruct (negb trigger || empty text); [exact H'|].
    pose proof (run_cleanup_timers h H) as Ht.
    split; cbn [timers cleanup next_id].
    + intros id t Hl. rewrite Ht in Hl.
      destruct (decide (id = next_id (run_cleanup h))) as [->|Hne];
        [reflexivity|].
      rewrite lookup_insert_ne, lookup_empty in Hl by congruence.
      discriminate Hl.
    + intros id [= <-]. lia.
  - destruct H as [Hown Hfresh]. unfold tick.
    destruct (timers h !! id) as [t|] eqn:Hid; [|now split].
    split; cbn [timers cleanup next_id]; [|exact Hfresh].
    intros j tj Hl. destruct (length (t_text t) <=? S (t_i t)).
    + destruct (decide (j = id)) as [->|Hne].
      * rewrite lookup_delete_eq in Hl. discriminate Hl.
      * rewrite lookup_delete_ne in Hl by congruence. now apply Hown in Hl.
    + destruct (decide (j = id)) as [->|Hne].
      * now apply Hown in Hid.
      * rewrite lookup_insert_ne in Hl by congruence. now apply Hown in Hl.
  - now apply owned_run_cleanup.
Qed.

Lemma reachable_owned (h : hook) : reachable h -> owned h.
Proof.
  induction 1 as [|h e _ IH]; [apply owned_mount | now apply owned_handle].
Qed.

Lemma revealing_tick (id : nat) (text : jsstring) (c : nat) (h : hook) (j : nat) :
  revealing id text c h ->
  revealing id text (if j =? id then S c else c) (tick j h).
Proof.
  intros [Hd Ht]. unfold revealing, tick.
  destruct (Nat.ltb_spec c (length text)) as [Hc|Hc].
  - destruct (Nat.eqb_spec j id) as [->|Hne].
    + rewrite Ht, lookup_singleton_eq. cbn [t_text t_i displayed timers].
      split; [reflexivity|].
      destruct (Nat.leb_spec (length text) (S c)) as [Hle|Hgt].
      * destruct (Nat.ltb_spec (S c) (length text)); [lia|].
        apply delete_singleton_eq.
      * destruct (Nat.ltb_spec (S c) (length text)); [|lia].
        apply insert_singleton_eq.
    + rewrite Ht, lookup_singleton_ne by congruence.
      split; [exact Hd|].
      rewrite Ht. destruct (Nat.ltb_spec c (length text)); [reflexivity|lia].
  - rewrite Ht, lookup_empty.
    destruct (j =? id).
    + split.
      * rewrite Hd, !take_ge by lia. reflexivity.
      * rewrite Ht. destruct (Nat.ltb_spec (S c) (length text)); [lia|reflexivity].
    + split; [exact Hd|].
      rewrite Ht. destruct (Nat.ltb_spec c (length text)); [lia|reflexivity].
Qed.

Lemma revealing_ticks (id : nat) (text : jsstring) (ids : list nat) :
  forall (c : nat) (h : hook),
    revealing id text c h ->
    revealing id text (c + ticks_of id ids) (run (map Tick ids) h).
Proof.
  induction ids as [|j ids IH]; intros c h H.
  - cbn. now rewrite Nat.add_0_r.
  - cbn [map run fold_left handle].
    apply (revealing_tick id text c h j) in H.
    apply IH in H. unfold ticks_of in *.
    destruct (Nat.eqb_spec j id) as [->|Hne].
    + rewrite count_occ_cons_eq, Nat.add_succ_r by reflexivity. exact H.
    + rewrite count_occ_cons_neq by assumption. exact H.
Qed.

(** C9. From any state the instance can be in, a (re)trigger with a
    non-empty text clears the displayed text, cancels the interval of the
    previous text and leaves exactly one interval, with its counter at 0;
    from then on, whatever timers tick and in whatever order, the displayed
    text is the prefix of the new text whose length is the number of ticks
    of the new interval, and once that number reaches the length of the
    text the displayed text is the whole text and no interval is left. *)
Theorem typewriter_reveals_text (h : hook) (text : jsstring) :
  reachable h ->
  text <> [] ->
  let id := next_id h in
  let h1 := rerender text true h in
  displayed h1 = []
  /\ timers h1 = {[ id := {| t_text := text; t_i := 0 |} ]}
  /\ (forall ids : list nat,
        displayed (run (map Tick ids) h1) = take (ticks_of id ids) text)
  /\ (forall ids : list nat,
        length text <= ticks_of id ids ->
        displayed (run (map Tick ids) h1) = text
        /\ timers (run (map Tick ids) h1) = ∅).
Proof.
  intros Hr Hne id h1.
  pose proof (reachable_owned h Hr) as Hown.
  pose proof (run_cleanup_timers h Hown) as Ht.
  destruct (run_cleanup_fields h) as (_ & Hid & _).
  assert (H1 : h1 = {| displayed := [];
                       timers := {[ id := {| t_text := text; t_i := 0 |} ]};
                       cleanup := Some id; next_id := S id |}).
  { unfold h1, rerender, effect. destruct text as [|c text]; [congruence|].
    cbn [negb orb empty]. rewrite Ht, Hid. reflexivity. }
  assert (Hrev : revealing id text 0 h1).
  { rewrite H1. split; cbn [displayed timers]; [now rewrite take_0|].
    destruct text; [congruence | reflexivity]. }
  repeat apply conj.
  - now rewrite H1.
  - now rewrite H1.
  - intros ids. now destruct (revealing_ticks id text ids 0 h1 Hrev).
  - intros ids Hlen.
    destruct (revealing_ticks id text ids 0 h1 Hrev) as [Hd Htm].
    cbn [Nat.add] in Hd, Htm. split.
    + rewrite Hd. now apply take_ge.
    + rewrite Htm.
      destruct (Nat.ltb_spec (ticks_of id ids) (length text)); [lia|reflexivity].
Qed.

Lemma interrupted_reachable : reachable interrupted.
Proof. unfold interrupted, run. cbn [fold_left]. repeat constructor. Qed.

Lemma typewriter_reveals_text_witness :
  displayed interrupted = str "ol"
  /\ displayed (rerender (str "new") true interrupted) = []
  /\ displayed (run (map Tick [1; 2; 1; 2])
                    (rerender (str "new") true interrupted)) = str "ne"
  /\ displayed (run (map Tick [2; 1; 2; 2; 1; 2])
                    (rerender (str "new") true interrupted)) = str "new".
Proof.
  destruct (typewriter_reveals_text interrupted (str "new")
              interrupted_reachable ltac:(discriminate))
    as (H0 & _ & Hk & Hall).
  repeat apply conj.
  - reflexivity.
  - exact H0.
  - rewrite Hk. reflexivity.
  - apply Hall. vm_compute. lia.
Defined.

End TypewriterFacts.

(** ** The drawing of a sparkline *)

Section SparklineViewFacts.

Import JS Sparkline SparklineView.

Lemma max_with_one_ge_one (data : list Q) : (1 <= max_with_one data)%Q.
Proof.
  induction data as [|v data IH]; cbn [max_with_one fold_right].
  - lra.
  - eapply Qle_trans; [exact IH | apply Q.le_max_r].
Qed.

Lemma max_with_one_ge (data : list Q) (v : Q) :
  In v data -> (v <= max_with_one data)%Q.
Proof.
  induction data as [|u data IH]; cbn [max_with_one fold_right]; intros [].
  - subst u. apply Q.le_max_l.
  - eapply Qle_trans; [now apply IH | apply Q.le_max_r].
Qed.

Lemma quotient_nonzero (a b : Q) :
  ~ (b == 0)%Q -> quotient a b = Some (a / b)%Q.
Proof.
  intros H. unfold quotient. destruct (Qeq_bool b 0) eqn:E; [|reflexivity].
  apply Qeq_bool_iff in E. contradiction.
Qed.

Lemma inject_nat_le (i n : nat) :
  (i <= n)%nat -> (inject_Z (Z.of_nat i) <= inject_Z (Z.of_nat n))%Q.
Proof. intros H. rewrite <- Zle_Qle. lia. Qed.

(** One point of a series of at least two non-negative values. *)
Lemma coordinates_in_viewport (data : list Q) (i : nat) (v : Q) :
  (2 <= length data)%nat ->
  (i < length data)%nat ->
  In v data ->
  (0 <= v)%Q ->
  in_viewport (coordinates data i v).
Proof.
  intros Hlen Hi Hin Hv. unfold in_viewport, coordinates. cbn [fst snd].
  pose proof (max_with_one_ge_one data) as H1.
  pose proof (max_with_one_ge data v Hin) as Hmax.
  set (m := max_with_one data) in *.
  set (n := inject_Z (Z.of_nat (length data))).
  assert (Hn : (2 <= n)%Q).
  { unfold n. change 2%Q with (inject_Z (Z.of_nat 2)). now apply inject_nat_le. }
  assert (Hin' : (0 <= inject_Z (Z.of_nat i) <= n - 1)%Q).
  { split.
    - change 0%Q with (inject_Z (Z.of_nat 0)). apply inject_nat_le. lia.
    - unfold n. change 1%Q with (inject_Z 1). unfold Qminus.
      rewrite <- inject_Z_opp, <- inject_Z_plus, <- Zle_Qle. lia. }
  split.
  - rewrite quotient_nonzero by (intros E; lra). cbn [fmap option_fmap option_map].
    eexists. split; [reflexivity|]. unfold w.
    assert (H0 : (0 <= inject_Z (Z.of_nat i) / (n - 1))%Q).
    { apply Qle_shift_div_l; lra. }
    assert (H2 : (inject_Z (Z.of_nat i) / (n - 1) <= 1)%Q).
    { apply Qle_shift_div_r; lra. }
    split; nra.
  - assert (H0 : (0 <= v / m)%Q) by (apply Qle_shift_div_l; lra).
    assert (H2 : (v / m <= 1)%Q) by (apply Qle_shift_div_r; lra).
    unfold h. split; nra.
Qed.

(** X2. The polyline of a series of at least two non-negative values lies in
    the 80 by 28 box of the drawing, one point per value. *)
Theorem sparkline_fits_viewport (data : list Q) :
  (2 <= length data)%nat ->
  Forall (fun v => 0 <= v)%Q data ->
  Forall in_viewport (points data)
  /\ length (points data) = length data.
Proof.
  intros Hlen Hpos. split.
  - apply Forall_lookup. intros i p Hp. unfold points in Hp.
    rewrite list_lookup_imap in Hp.
    destruct (data !! i) as [v|] eqn:Hv; [|discriminate Hp].
    injection Hp as <-.
    apply coordinates_in_viewport.
    + exact Hlen.
    + now apply lookup_lt_Some in Hv.
    + apply list_elem_of_In. now apply list_elem_of_lookup_2 in Hv.
    + rewrite Forall_lookup in Hpos. now apply (Hpos i).
  - unfold points. apply length_imap.
Qed.

Lemma sparkline_fits_viewport_witness :
  Forall in_viewport (points [40; 55; 70]%Q).
Proof.
  apply (sparkline_fits_viewport [40; 55; 70]%Q).
  - cbn. lia.
  - repeat constructor; vm_compute; discriminate.
Defined.

(** X3. Every point of the drawing has a horizontal position, unless the
    series has exactly one value: the index is then divided by
    [data.length - 1 = 0] and the one point has none. *)
Theorem sparkline_positions_defined (data : list Q) :
  Forall (fun p => is_Some (fst p)) (points data)
  <-> length data <> 1%nat.
Proof.
  split.
  - intros H Hlen. destruct data as [|v [|v' data]]; try discriminate Hlen.
    apply Forall_inv in H. cbn in H. destruct H as [x Hx]. discriminate Hx.
  - intros Hlen. apply Forall_lookup. intros i p Hp. unfold points in Hp.
    rewrite list_lookup_imap in Hp.
    destruct (data !! i) as [v|] eqn:Hv; [|discriminate Hp].
    injection Hp as <-. apply lookup_lt_Some in Hv.
    unfold coordinates. cbn [fst]. rewrite quotient_nonzero.
    + eexists. reflexivity.
    + intros E.
      assert (Hn : (2 <= length data)%nat) by lia.
      apply inject_nat_le in Hn. change (inject_Z (Z.of_nat 2)) with 2%Q in Hn.
      lra.
Qed.

(** X4. The drawing of every synthesized sparkline lies in the box: seven
    points, whatever the target value and the seed. *)
Theorem synthesized_sparkline_fits_viewport (val : Q) (seed : Z) :
  Forall in_viewport (points (makeSparkline val seed))
  /\ length (points (makeSparkline val seed)) = 7%nat.
Proof.
  assert (Hlen : length (makeSparkline val seed) = 7%nat).
  { unfold makeSparkline. now rewrite makeSparkline_run_eq. }
  assert (Hpos : forall v, In v (makeSparkline val seed) -> (0 <= v)%Q).
  { intros v. unfold makeSparkline. rewrite makeSparkline_run_eq. cbn [fst].
    intros Hin. apply in_map_iff in Hin as (i & <- & _).
    unfold spec_point. apply Q.le_max_l. }
  split.
  - apply Forall_lookup. intros i p Hp. unfold points in Hp.
    rewrite list_lookup_imap in Hp.
    destruct (makeSparkline val seed !! i) as [v|] eqn:Hv; [|discriminate Hp].
    injection Hp as <-.
    assert (Hin : In v (makeSparkline val seed)).
    { apply list_elem_of_In. now apply list_elem_of_lookup_2 in Hv. }
    apply coordinates_in_viewport.
    + rewrite Hlen. lia.
    + now apply lookup_lt_Some in Hv.
    + exact Hin.
    + now apply Hpos.
  - unfold points. now rewrite length_imap.
Qed.

(** X6. On states of at most [2^32] in magnitude (where the source's
    arithmetic is that of the integers) the generator never sends two
    different 32-bit states to the same state: the update is one-to-one on
    the unsigned states. *)
Theorem next_state_injective (s1 s2 : Z) :
  - 2 ^ 32 <= s1 <= 2 ^ 32 ->
  - 2 ^ 32 <= s2 <= 2 ^ 32 ->
  ustate (next_state s1) = ustate (next_state s2) ->
  ustate s1 = ustate s2.
Proof.
  intros _ _. rewrite !ustate_next. unfold ustate. rewrite !ushr_zero.
  intros H.
  assert (Hdiv : (2 ^ 32 | (s1 - s2) * 1664525)).
  { apply Z.mod_divide; [discriminate|].
    replace ((s1 - s2) * 1664525)
      with ((s1 * 1664525 + 1013904223) - (s2 * 1664525 + 1013904223)) by ring.
    rewrite Zminus_mod, H, Z.sub_diag. reflexivity. }
  rewrite Z.mul_comm in Hdiv.
  apply Z.gauss in Hdiv; [|reflexivity].
  destruct Hdiv as (q & Hq).
  replace s1 with (s2 + q * 2 ^ 32) by lia.
  apply Z_mod_plus_full.
Qed.

Lemma next_state_injective_witness :
  ustate 1 = ustate (1 - 2 ^ 32).
Proof.
  apply (next_state_injective 1 (1 - 2 ^ 32)).
  - vm_compute. split; discriminate.
  - vm_compute. split; discriminate.
  - vm_compute. reflexivity.
Defined.

End SparklineViewFacts.

(** ** More on the derived values *)

Section ChartFacts.

Import JS Dashboard Highlighter Reference Charts Scenarios.

Lemma Math_round_monotone (a b : Q) :
  (a <= b)%Q -> Math_round a <= Math_round b.
Proof. intros H. unfold Math_round. apply Qfloor_resp_le. lra. Qed.

(** X7. For an integral score between 0 and 100 the executive mode never
    lowers the displayed score: the amplified score is an integer between
    the score and 100. *)
Theorem exec_mode_never_lowers_score
    (txt : jsstring) (d : AnalysisData) (n : Z) :
  0 <= n <= 100 ->
  overall_risk_score d = Some (inject_Z n) ->
  let off := {| text := txt; data := Some d; execMode := false |} in
  let on := {| text := txt; data := Some d; execMode := true |} in
  effectiveScore off = inject_Z n
  /\ (effectiveScore off <= effectiveScore on)%Q
  /\ (effectiveScore on <= 100)%Q
  /\ exists m : Z, effectiveScore on = inject_Z m.
Proof.
  intros Hn Hs off on.
  assert (Hoff : effectiveScore off = inject_Z n).
  { unfold effectiveScore, score, off. cbn. now rewrite Hs. }
  set (d12 := number (12 # 10)).
  assert (Hd12 : (119 # 100 <= d12 <= 121 # 100)%Q).
  { unfold d12. vm_compute. split; discriminate. }
  assert (Hon : effectiveScore on
                = Qmin (inject_Z (Math_round (mul (inject_Z n) d12))) 100).
  { unfold effectiveScore, score, on. cbn. now rewrite Hs. }
  assert (Hn0 : (0 <= inject_Z n <= 100)%Q).
  { change 0%Q with (inject_Z 0). change 100%Q with (inject_Z 100).
    rewrite <- !Zle_Qle. lia. }
  assert (Hr : n <= Math_round (mul (inject_Z n) d12)).
  { unfold Math_round, mul. rewrite <- (Qfloor_Z n) at 1.
    apply Qfloor_resp_le.
    assert (Hx : (Qabs (inject_Z n * d12) < 2 ^ (6 + 1))%Q).
    { apply Qabs_Qlt_condition. change (2 ^ (6 + 1))%Q with 128%Q.
      split; nra. }
    pose proof (binary64_error (inject_Z n * d12) 6 Hx ltac:(lia)) as He.
    apply Qabs_Qle_condition in He. change (2 ^ (6 - 53))%Q with (2 ^ (-47))%Q in He.
    assert (Hsmall : (2 ^ (-47) <= 1 # 100)%Q) by (vm_compute; discriminate).
    nra. }
  repeat apply conj.
  - exact Hoff.
  - rewrite Hoff, Hon. apply Q.min_glb.
    + now rewrite <- Zle_Qle.
    + change 100%Q with (inject_Z 100). rewrite <- Zle_Qle. lia.
  - rewrite Hon. apply Q.le_min_r.
  - rewrite Hon. unfold Qmin, GenericMinMax.gmin.
    destruct (_ ?= _)%Q; now eexists.
Qed.

Lemma exec_mode_never_lowers_score_witness :
  effectiveScore {| text := []; data := Some scenario_record; execMode := false |}
  = 50%Q
  /\ (effectiveScore scenario_state <= 100)%Q.
Proof.
  destruct (exec_mode_never_lowers_score [] scenario_record 50
              ltac:(lia) eq_refl) as (H1 & _ & H3 & _).
  split; [exact H1 | exact H3].
Defined.

(** X8. With the executive mode off, the colour and the label of a score
    always name the same band: two scores have the same label exactly
    when they have the same colour. *)
Theorem color_follows_label (st : state) (a b : option Q) :
  execMode st = false ->
  getRiskLabel st a = getRiskLabel st b
  <-> getRiskColor st a = getRiskColor st b.
Proof.
  intros H. unfold getRiskColor, getRiskLabel. rewrite H. cbv zeta.
  destruct (le (a ?? effectiveScore st) 30), (le (a ?? effectiveScore st) 60),
           (le (a ?? effectiveScore st) 80),
           (le (b ?? effectiveScore st) 30), (le (b ?? effectiveScore st) 60),
           (le (b ?? effectiveScore st) 80);
    split; intros E; try reflexivity; discriminate E.
Qed.

Lemma color_follows_label_witness :
  getRiskLabel typing_state (Some 10%Q) = getRiskLabel typing_state (Some 30%Q)
  <-> getRiskColor typing_state (Some 10%Q) = getRiskColor typing_state (Some 30%Q).
Proof. apply (color_follows_label typing_state). reflexivity. Defined.

(** X9. The chip that lists an entity under the text has the colour the
    highlighter gives the entities of that type, whatever the type. *)
Theorem chip_color_matches_highlight (type : string) :
  chip_color type = color_of type.
Proof.
  unfold chip_color, color_of, chipColors, colorMap.
  rewrite !lookup_insert, lookup_empty.
  repeat case_decide; reflexivity.
Qed.

Lemma or_else_nonzero (a b : Q) : ~ (b == 0)%Q -> ~ (or_else a b == 0)%Q.
Proof.
  intros Hb. unfold or_else. destruct (Qeq_bool a 0) eqn:E; [exact Hb|].
  intros H. apply Qeq_bool_iff in H. congruence.
Qed.

Lemma or_else_keeps (a b : Q) : ~ (a == 0)%Q -> or_else a b = a.
Proof.
  intros Ha. unfold or_else. destruct (Qeq_bool a 0) eqn:E; [|reflexivity].
  apply Qeq_bool_iff in E. contradiction.
Qed.

(** X10. With a record present the breakdown has its five categories in a
    fixed order, and no category other than the family exposure is ever
    shown as zero: an index of zero is replaced by its placeholder, any
    other index is shown as it is.  Without a record there is no
    breakdown. *)
Theorem breakdown_never_zero (st : state) :
  (data st = None -> breakdownData st = [])
  /\ (data st <> None ->
      map fst (breakdownData st)
      = ["Location Exposure"; "Corporate Mentions"; "Family Exposure";
         "Emotional Signals"; "Identity"]%string
      /\ Forall (fun entry =>
                   fst entry <> "Family Exposure"%string ->
                   ~ (snd entry == 0)%Q)
                (breakdownData st)
      /\ (~ (locationIdx st == 0)%Q ->
          breakdownData st !! 0%nat
          = Some ("Location Exposure"%string, locationIdx st))
      /\ breakdownData st !! 2%nat
         = Some ("Family Exposure"%string, familyIdx st)).
Proof.
  unfold breakdownData. split.
  - now intros ->.
  - destruct (data st) as [d|]; [intros _|congruence].
    assert (Hnz : forall a b : Q,
               ~ (Qeq_bool b 0 = true) -> ~ (or_else a b == 0)%Q).
    { intros a b Hb. apply or_else_nonzero. intros H.
      apply Qeq_bool_iff in H. contradiction. }
    split; [reflexivity|]. split; [|split].
    + repeat constructor; cbn [fst snd]; intros Hname;
        try (apply Hnz; vm_compute; discriminate).
      congruence.
    + intros H. cbn. now rewrite or_else_keeps.
    + reflexivity.
Qed.

Lemma breakdown_never_zero_witness :
  breakdownData typing_state = []
  /\ breakdownData scenario_state !! 2%nat
     = Some ("Family Exposure"%string, familyIdx scenario_state).
Proof.
  destruct (breakdown_never_zero typing_state) as (H1 & _).
  destruct (breakdown_never_zero scenario_state) as (_ & H2).
  split; [apply H1; reflexivity | apply H2; discriminate].
Defined.

End ChartFacts.

(** ** More on the highlighter *)

Section HighlightFacts.

Import JS RegExp Dashboard Highlighter Reference Scenarios.

Local Open Scope nat_scope.

(** X11. A text in which no entity value and no "family" occurs comes back
    unchanged, character for character: nothing in it is escaped or
    rewritten. *)
Theorem highlightText_leaves_other_text
    (st : state) (ents : list (string * list jsstring)) (raw : jsstring) :
  data st ≫= entities = Some ents ->
  (forall entry v, In entry ents -> In v (snd entry) ->
                   v <> [] /\ ~ occurs_ci v raw) ->
  ~ occurs_ci (str "family") raw ->
  highlightText st raw = Ok raw.
Proof.
  intros Hents Hvals Hfam.
  rewrite (highlightText_present st ents raw Hents).
  rewrite entity_passes_absent by assumption.
  f_equal. apply wrap_all_absent; [discriminate | assumption].
Qed.

Lemma highlightText_leaves_other_text_witness :
  highlightText punctuated_state (str "<b>AxBBC</b> & more")
  = Ok (str "<b>AxBBC</b> & more").
Proof.
  apply (highlightText_leaves_other_text punctuated_state
           [("ORG"%string, [str "A.B*C"])] (str "<b>AxBBC</b> & more") eq_refl).
  - intros entry v He Hv. destruct He as [<- | []].
    destruct Hv as [<- | []]. split; [discriminate|].
    apply not_occurs_by_test. vm_compute. reflexivity.
  - apply not_occurs_by_test. vm_compute. reflexivity.
Defined.

Lemma occurrences_empty_value (html : jsstring) :
  occurrences [] html 0
  = flat_map (fun c => [Hit []; Plain c]) html ++ [Hit []].
Proof.
  induction html as [|c html IH]; cbn [occurrences ci_prefix length take].
  - reflexivity.
  - cbn [flat_map app]. now rewrite IH.
Qed.

(** X12. An empty entity value matches at every position: the pass puts an
    empty span before every character of the string and one at its end. *)
Theorem highlight_empty_value (label : string) (html : jsstring) :
  highlight_value label html []
  = Ok (flat_map (fun c => entity_wrap (color_of label) [] ++ [c]) html
        ++ entity_wrap (color_of label) []).
Proof.
  rewrite highlight_value_literal. f_equal. unfold wrap_all.
  rewrite occurrences_empty_value. rewrite render_app.
  cbn [render flat_map]. rewrite app_nil_r. f_equal.
  unfold render. induction html as [|c html IH]; cbn [flat_map]; [reflexivity|].
  rewrite flat_map_app, IH. cbn [flat_map app]. reflexivity.
Qed.

End HighlightFacts.

(** ** More on the count-up animator *)

Section CountUpMore.

Import JS CountUp.

Lemma countup_settles_witness :
  current (run (Effect 50 true :: Frame 16
                :: map Frame ([300; 700] ++ 1116 :: [1200])%Q) (mount 1100)) = 50
  /\ frames (run (Effect 50 true :: Frame 16
                  :: map Frame ([300; 700] ++ 1116 :: [1200])%Q) (mount 1100)) = [].
Proof.
  destruct (countup_settles 50 1100 16 1116 [300; 700]%Q [1200]%Q) as [H1 H2].
  - vm_compute. reflexivity.
  - intros H. vm_compute in H. discriminate H.
  - vm_compute. discriminate.
  - split; [exact H1 | exact H2].
Defined.

Lemma cube (x : Q) : (x ^ 3 == x * x * x)%Q.
Proof. cbn. ring. Qed.

Lemma eased_bounds (p : Q) :
  (0 <= p <= 1)%Q -> (0 <= 1 - (1 - p) ^ 3 <= 1)%Q.
Proof.
  intros [H0 H1]. rewrite cube. set (x := (1 - p)%Q).
  assert (Hx : (0 <= x <= 1)%Q) by (unfold x; lra).
  assert (Hxx : (0 <= x * x <= 1)%Q) by (split; nra).
  split; nra.
Qed.

Lemma eased_monotone (p q : Q) :
  (0 <= p)%Q -> (p <= q)%Q -> (q <= 1)%Q ->
  (1 - (1 - p) ^ 3 <= 1 - (1 - q) ^ 3)%Q.
Proof.
  intros H0 Hpq H1. rewrite !cube.
  set (x := (1 - q)%Q). set (y := (1 - p)%Q).
  assert (Hx : (0 <= x)%Q) by (unfold x; lra).
  assert (Hxy : (x <= y)%Q) by (unfold x, y; lra).
  assert (Hsq : (x * x <= y * y)%Q) by nra.
  assert (Hx2 : (0 <= x * x)%Q) by nra.
  nra.
Qed.

Lemma progress_bounds (d s ts : Q) :
  (0 < d)%Q -> (s <= ts)%Q -> (0 <= Math_min ((ts - s) / d) 1 <= 1)%Q.
Proof.
  intros Hd Hs. unfold Math_min. split.
  - apply Q.min_glb; [|lra]. apply Qle_shift_div_l; lra.
  - apply Q.le_min_r.
Qed.

Lemma progress_monotone (d s ts1 ts2 : Q) :
  (0 < d)%Q -> (ts1 <= ts2)%Q ->
  (Math_min ((ts1 - s) / d) 1 <= Math_min ((ts2 - s) / d) 1)%Q.
Proof.
  intros Hd Hts. unfold Math_min. apply Q.min_le_compat_r.
  unfold Qdiv. apply Qmult_le_compat_r; [lra|].
  apply Qinv_le_0_compat. lra.
Qed.

(** X13. Within one animation the displayed value never decreases from a
    frame to the next and never passes [Math.round(target)]. *)
Theorem countup_never_decreases (v : Z) (d target s ts1 ts2 : Q) :
  (0 < d)%Q -> (0 <= target)%Q -> ~ (s == 0)%Q ->
  (s <= ts1)%Q -> (ts1 <= ts2)%Q ->
  let h := {| current := v; duration := d;
              frames := [{| c_target := target; c_start := Some s |}] |} in
  0 <= current (frame ts1 h)
  /\ current (frame ts1 h) <= current (frame ts2 (frame ts1 h))
  /\ current (frame ts2 (frame ts1 h)) <= Math_round target.
Proof.
  intros Hd Ht Hs Hs1 H12 h. unfold h.
  rewrite (frame_running v d target s ts1 Hs). cbn zeta.
  pose proof (progress_bounds d s ts1 Hd Hs1) as Hp1.
  assert (Hs2 : (s <= ts2)%Q) by lra.
  pose proof (progress_bounds d s ts2 Hd Hs2) as Hp2.
  pose proof (progress_monotone d s ts1 ts2 Hd H12) as Hmono.
  set (p1 := Math_min ((ts1 - s) / d) 1) in *.
  set (p2 := Math_min ((ts2 - s) / d) 1) in *.
  pose proof (eased_bounds p1 Hp1) as He1.
  pose proof (eased_bounds p2 Hp2) as He2.
  pose proof (eased_monotone p1 p2 (proj1 Hp1) Hmono (proj2 Hp2)) as Hem.
  set (e1 := (1 - (1 - p1) ^ 3)%Q) in *.
  set (e2 := (1 - (1 - p2) ^ 3)%Q) in *.
  assert (Hv0 : 0 <= Math_round (0 + (target - 0) * e1)).
  { change 0 with (Math_round 0) at 1. apply Math_round_monotone. nra. }
  assert (Hv1 : Math_round (0 + (target - 0) * e1) <= Math_round target).
  { apply Math_round_monotone. nra. }
  assert (Hv2 : Math_round (0 + (target - 0) * e2) <= Math_round target).
  { apply Math_round_monotone. nra. }
  assert (Hv12 : Math_round (0 + (target - 0) * e1)
                 <= Math_round (0 + (target - 0) * e2)).
  { apply Math_round_monotone. nra. }
  cbn [current]. split; [exact Hv0|].
  destruct (negb (le 1 p1)).
  - rewrite (frame_running _ d target s ts2 Hs). cbn zeta. cbn [current].
    fold p2. fold e2. split; assumption.
  - unfold frame. cbn [frames fold_left current]. split; [lia | assumption].
Qed.

Lemma countup_never_decreases_witness :
  let h := {| current := 0; duration := 1100;
              frames := [{| c_target := 50; c_start := Some 16%Q |}] |} in
  current (frame 566 h) <= current (frame 800 (frame 566 h))
  /\ current (frame 800 (frame 566 h)) <= 50.
Proof.
  destruct (countup_never_decreases 0 1100 50 16 566 800) as (_ & H2 & H3).
  - vm_compute. reflexivity.
  - vm_compute. discriminate.
  - intros H. vm_compute in H. discriminate H.
  - vm_compute. discriminate.
  - vm_compute. discriminate.
  - split; [exact H2 | exact H3].
Defined.

(** X14. The clock of an animation does not start on a frame whose timestamp
    is 0: [!start] is also true of a start time of 0, so the next frame
    takes its own timestamp as the start and the value is still 0 then. *)
Theorem countup_clock_ignores_zero (target d ts : Q) :
  (0 < d)%Q -> ~ (ts == 0)%Q ->
  let h := run [Effect target true; Frame 0; Frame ts] (mount d) in
  frames h = [{| c_target := target; c_start := Some ts |}]
  /\ current h = 0.
Proof.
  intros Hd Hts.
  assert (Hz : forall t : Q, (Math_min ((t - t) / d) 1 == 0)%Q).
  { intros t. assert (H : ((t - t) / d == 0)%Q) by (field; lra).
    unfold Math_min. rewrite Q.min_l; [exact H | rewrite H; lra]. }
  assert (E : forall t : Q, le 1 (Math_min ((t - t) / d) 1) = false).
  { intros t. unfold le. destruct (Qle_bool _ _) eqn:El; [|reflexivity].
    apply Qle_bool_iff in El. rewrite Hz in El. lra. }
  assert (Hround : forall t : Q,
             Math_round (0 + (target - 0)
                             * (1 - (1 - Math_min ((t - t) / d) 1) ^ 3)) = 0).
  { intros t. change 0 with (Math_round 0) at 3. unfold Math_round.
    apply Qfloor_comp. rewrite cube, Hz. ring. }
  cbn [run fold_left handle].
  assert (H1 : frame 0 (effect target true (mount d))
               = {| current := 0; duration := d;
                    frames := [{| c_target := target; c_start := Some 0%Q |}] |}).
  { unfold frame, effect, mount, requestAnimationFrame.
    cbn [negb frames app current duration fold_left].
    unfold step. cbn [c_start falsy c_target duration setCurrent].
    rewrite E, Hround. reflexivity. }
  rewrite H1. unfold frame. cbn [frames fold_left current duration].
  unfold step. cbn [c_start c_target duration falsy].
  change (Qeq_bool 0 0) with true. cbn [setCurrent].
  rewrite E, Hround. split; reflexivity.
Qed.

Lemma countup_clock_ignores_zero_witness :
  frames (run [Effect 50 true; Frame 0; Frame 16] (mount 1100))
  = [{| c_target := 50; c_start := Some 16%Q |}].
Proof.
  destruct (countup_clock_ignores_zero 50 1100 16) as [H _].
  - vm_compute. reflexivity.
  - intros H. vm_compute in H. discriminate H.
  - exact H.
Defined.

End CountUpMore.

(** ** More on the typewriter *)

Section TypewriterMore.

Import JS Typewriter.

Local Open Scope nat_scope.

(** X15. The hook never holds more than one interval, and unmounting it
    leaves none. *)
Theorem typewriter_single_interval (h : hook) :
  reachable h ->
  size (timers h) <= 1 /\ timers (handle h Unmount) = ∅.
Proof.
  intros Hr. pose proof (reachable_owned h Hr) as Hown. split.
  - destruct Hown as [Hown _].
    destruct (cleanup h) as [id|] eqn:Hc.
    + destruct (timers h !! id) as [t|] eqn:Ht.
      * assert (E : timers h = {[ id := t ]}).
        { apply map_eq. intros j. destruct (decide (j = id)) as [->|Hne].
          - now rewrite lookup_singleton_eq.
          - rewrite lookup_singleton_ne by congruence.
            destruct (timers h !! j) as [tj|] eqn:Hj; [|reflexivity].
            apply Hown in Hj. congruence. }
        rewrite E, map_size_singleton. lia.
      * assert (E : timers h = ∅).
        { apply map_empty. intros j.
          destruct (timers h !! j) as [tj|] eqn:Hj; [|reflexivity].
          pose proof (Hown _ _ Hj) as Hj'. congruence. }
        rewrite E, map_size_empty. lia.
    + assert (E : timers h = ∅).
      { apply map_empty. intros j.
        destruct (timers h !! j) as [tj|] eqn:Hj; [|reflexivity].
        apply Hown in Hj. congruence. }
      rewrite E, map_size_empty. lia.
  - cbn [handle]. now apply run_cleanup_timers.
Qed.

Lemma typewriter_single_interval_witness :
  size (timers interrupted) <= 1 /\ timers (handle interrupted Unmount) = ∅.
Proof. apply (typewriter_single_interval interrupted interrupted_reachable). Defined.

(** X16. A re-render with an empty text, or with the trigger off, cancels the
    running interval but does not clear what is displayed: the part of the
    previous text revealed so far stays. *)
Theorem typewriter_empty_text_keeps_display
    (h : hook) (text : jsstring) (trigger : bool) :
  reachable h ->
  trigger = false \/ text = [] ->
  timers (rerender text trigger h) = ∅
  /\ displayed (rerender text trigger h) = displayed h.
Proof.
  intros Hr Hoff.
  pose proof (run_cleanup_timers h (reachable_owned h Hr)) as Ht.
  destruct (run_cleanup_fields h) as (_ & _ & Hd).
  assert (E : rerender text trigger h = run_cleanup h).
  { unfold rerender, effect. destruct Hoff as [-> | ->]; [reflexivity|].
    now rewrite orb_true_r. }
  rewrite E. split; assumption.
Qed.

Lemma typewriter_empty_text_keeps_display_witness :
  timers (rerender [] true interrupted) = ∅
  /\ displayed (rerender [] true interrupted) = str "ol".
Proof.
  destruct (typewriter_empty_text_keeps_display interrupted [] true
              interrupted_reachable (or_intror eq_refl)) as [H1 H2].
  split; [exact H1 | rewrite H2; reflexivity].
Defined.

Lemma rerender_revealing (h : hook) (text : jsstring) :
  reachable h -> text <> [] ->
  revealing (next_id h) text 0 (rerender text true h).
Proof.
  intros Hr Hne.
  pose proof (run_cleanup_timers h (reachable_owned h Hr)) as Ht.
  destruct (run_cleanup_fields h) as (_ & Hid & _).
  unfold rerender, effect. destruct text as [|c text]; [congruence|].
  cbn [negb orb empty]. rewrite Ht, Hid.
  split; cbn [displayed timers]; reflexivity.
Qed.

(** X17. The cursor of [TypewriterText] is shown until the whole text is
    revealed and not after: [done] holds exactly when the interval of the
    text has ticked at least as often as the text is long. *)
Theorem typewriter_cursor_until_done
    (h : hook) (text : jsstring) (ids : list nat) :
  reachable h ->
  text <> [] ->
  TypewriterText.done text (run (map Tick ids) (rerender text true h))
  = (length text <=? ticks_of (next_id h) ids).
Proof.
  intros Hr Hne.
  pose proof (rerender_revealing h text Hr Hne) as Hrev.
  apply (revealing_ticks _ _ ids) in Hrev as [Hd _]. cbn [Nat.add] in Hd.
  unfold TypewriterText.done. rewrite Hd, length_take.
  destruct (Nat.leb_spec (length text) (ticks_of (next_id h) ids));
    [apply Nat.leb_le | apply Nat.leb_gt]; lia.
Qed.

Lemma typewriter_cursor_until_done_witness :
  TypewriterText.done (str "new")
    (run (map Tick [2; 1; 2]) (rerender (str "new") true interrupted)) = false
  /\ TypewriterText.done (str "new")
       (run (map Tick [2; 2; 1; 2]) (rerender (str "new") true interrupted))
     = true.
Proof.
  split.
  - rewrite (typewriter_cursor_until_done interrupted (str "new") [2; 1; 2]
               interrupted_reachable ltac:(discriminate)).
    reflexivity.
  - rewrite (typewriter_cursor_until_done interrupted (str "new") [2; 2; 1; 2]
               interrupted_reachable ltac:(discriminate)).
    reflexivity.
Defined.

End TypewriterMore.

(** ** The attack path *)

Section AttackPathFacts.

Import AttackPath.

Local Open Scope nat_scope.

Lemma attack_owned_mount : owned mount.
Proof. split; [intros id H; set_solver | intros id H; discriminate H]. Qed.

Lemma attack_cleanup_timers (f : flow) : owned f -> timers (run_cleanup f) = ∅.
Proof.
  intros [Hown _]. unfold run_cleanup.
  destruct (cleanup f) as [id|] eqn:Hc; cbn [timers].
  - apply set_eq. intros j. split; [|set_solver].
    intros Hj. apply elem_of_difference in Hj as [Hj Hne].
    apply Hown in Hj. set_solver.
  - apply set_eq. intros j. split; [|set_solver].
    intros Hj. apply Hown in Hj. congruence.
Qed.

Lemma attack_cleanup_fields (f : flow) :
  cleanup (run_cleanup f) = None
  /\ next_id (run_cleanup f) = next_id f
  /\ step (run_cleanup f) = step f.
Proof. unfold run_cleanup. destruct (cleanup f) eqn:E; cbn; auto. Qed.

Lemma attack_owned_cleanup (f : flow) : owned f -> owned (run_cleanup f).
Proof.
  intros H. pose proof (attack_cleanup_timers f H) as Ht.
  destruct (attack_cleanup_fields f) as (Hc & _ & _). split.
  - intros id Hid. rewrite Ht in Hid. set_solver.
  - intros id Hid. congruence.
Qed.

Lemma attack_owned_handle (f : flow) (e : event) : owned f -> owned (handle f e).
Proof.
  intros H. destruct e as [active | id |]; cbn [handle].
  - unfold rerender, effect.
    pose proof (attack_owned_cleanup f H) as [Ho Hf].
    pose proof (attack_cleanup_timers f H) as Ht.
    destruct active; cbn [negb]; split; cbn [timers cleanup next_id].
    + intros id Hid. rewrite Ht in Hid. f_equal.
      apply elem_of_union in Hid as [Hid | Hid];
        [now apply elem_of_singleton in Hid | now apply elem_of_empty in Hid].
    + intros id [= <-]. lia.
    + exact Ho.
    + exact Hf.
  - unfold tick. destruct (decide (id ∈ timers f)); [|exact H].
    destruct H as [Ho Hf]. split; cbn [timers cleanup next_id]; assumption.
  - now apply attack_owned_cleanup.
Qed.

Lemma attack_reachable_owned (f : flow) : reachable f -> owned f.
Proof.
  induction 1 as [|f e _ IH];
    [apply attack_owned_mount | now apply attack_owned_handle].
Qed.

Lemma attack_step_bounded (f : flow) : reachable f -> step f <= stages - 1.
Proof.
  induction 1 as [|f e _ IH]; [cbn; lia|].
  destruct e as [active | id |]; cbn [handle].
  - unfold rerender, effect. destruct (attack_cleanup_fields f) as (_ & _ & Hs).
    destruct active; cbn [negb step]; [now rewrite Hs | lia].
  - unfold tick. destruct (decide (id ∈ timers f)); [|exact IH].
    cbn [step]. destruct (Nat.ltb_spec (step f) (stages - 1)); lia.
  - now destruct (attack_cleanup_fields f) as (_ & _ & ->).
Qed.

(** X18. The stage never passes the last one, the component never holds
    more than one interval, and turning it off resets the stage to the
    first and leaves no interval. *)
Theorem attack_path_bounded (f : flow) :
  reachable f ->
  step f <= 4
  /\ size (timers f) <= 1
  /\ step (handle f (Render false)) = 0
  /\ timers (handle f (Render false)) = ∅.
Proof.
  intros Hr. pose proof (attack_reachable_owned f Hr) as Hown.
  repeat apply conj.
  - apply (attack_step_bounded f Hr).
  - destruct Hown as [Ho _]. destruct (cleanup f) as [id|] eqn:Hc.
    + assert (Hsub : timers f ⊆ {[ id ]}).
      { intros j Hj. apply Ho in Hj. set_solver. }
      apply subseteq_size in Hsub. rewrite size_singleton in Hsub. exact Hsub.
    + assert (E : timers f = ∅).
      { apply set_eq. intros j. split; [|set_solver].
        intros Hj. apply Ho in Hj. congruence. }
      rewrite E, size_empty. lia.
  - reflexivity.
  - cbn [handle]. unfold rerender, effect. cbn [negb timers].
    now apply attack_cleanup_timers.
Qed.

Lemma attack_path_bounded_witness :
  step (run [Render true; Tick 1; Tick 1; Tick 1; Tick 1; Tick 1; Tick 1] mount)
  <= 4.
Proof.
  apply (attack_path_bounded
           (run [Render true; Tick 1; Tick 1; Tick 1; Tick 1; Tick 1; Tick 1]
                mount)).
  unfold run. cbn [fold_left]. repeat constructor.
Defined.

(** The state of an activation by interval [id] that started at stage
    [s0] and has seen [c] of its ticks. *)
Lemma attack_ticks (id s0 : nat) (ids : list nat) :
  forall (c : nat) (f : flow),
    timers f = {[ id ]} ->
    step f = Nat.min (s0 + c) 4 ->
    timers (run (map Tick ids) f) = {[ id ]}
    /\ step (run (map Tick ids) f)
       = Nat.min (s0 + (c + count_occ Nat.eq_dec ids id)) 4.
Proof.
  induction ids as [|j ids IH]; intros c f Ht Hs.
  - cbn. now rewrite Nat.add_0_r.
  - cbn [map run fold_left handle]. fold (run (map Tick ids) (tick j f)).
    destruct (Nat.eq_dec j id) as [->|Hne].
    + rewrite count_occ_cons_eq by reflexivity.
      destruct (IH (S c) (tick id f)) as [H1 H2].
      * unfold tick. rewrite Ht. destruct (decide (id ∈ {[ id ]})); [|set_solver].
        reflexivity.
      * unfold tick. rewrite Ht. destruct (decide (id ∈ {[ id ]})); [|set_solver].
        cbn [step]. rewrite Hs. unfold stages.
        destruct (Nat.ltb_spec (Nat.min (s0 + c) 4) (5 - 1)); lia.
      * split; [exact H1|]. rewrite H2. f_equal. lia.
    + rewrite count_occ_cons_neq by assumption.
      apply IH; unfold tick; rewrite Ht;
        (destruct (decide (j ∈ {[ id ]})) as [Hin|]; [set_solver|]); assumption.
Qed.

(** X19. Once the component is turned on, every tick of its interval
    advances the stage by one until the last stage, where it stays; ticks
    of intervals cleared before do nothing, and the interval goes on
    running at the last stage. *)
Theorem attack_path_advances (f : flow) (ids : list nat) :
  reachable f ->
  let id := next_id f in
  let f1 := handle f (Render true) in
  step (run (map Tick ids) f1)
  = Nat.min (step f + count_occ Nat.eq_dec ids id) 4
  /\ timers (run (map Tick ids) f1) = {[ id ]}.
Proof.
  intros Hr id f1.
  pose proof (attack_reachable_owned f Hr) as Hown.
  pose proof (attack_cleanup_timers f Hown) as Ht.
  destruct (attack_cleanup_fields f) as (_ & Hid & Hs).
  pose proof (attack_step_bounded f Hr) as Hb. unfold stages in Hb.
  destruct (attack_ticks id (step f) ids 0 f1) as [H1 H2].
  - unfold f1. cbn [handle]. unfold rerender, effect. cbn [negb timers].
    rewrite Ht, Hid. apply union_empty_r_L.
  - unfold f1. cbn [handle]. unfold rerender, effect. cbn [negb step].
    rewrite Hs. lia.
  - split; [exact H2 | exact H1].
Qed.

Lemma attack_path_advances_witness :
  step (run (map Tick [1; 7; 1; 1]) (handle mount (Render true))) = 3.
Proof.
  destruct (attack_path_advances mount [1; 7; 1; 1] reachable_mount) as [H _].
  rewrite H. reflexivity.
Defined.

End AttackPathFacts.

(** ** The check list *)

Section ChecklistFacts.

Import Checklist.

Local Open Scope nat_scope.

Lemma done_insert (l : list bool) :
  forall (i : nat) (b : bool),
    l !! i = Some b ->
    done (<[i := negb b]> l) + (if b then 1 else 0)
    = done l + (if b then 0 else 1).
Proof.
  unfold done. induction l as [|x l IH]; intros [|i] b H; try discriminate H.
  - injection H as ->. cbn. destruct b; cbn; lia.
  - cbn in H. specialize (IH i b H).
    change (<[S i := negb b]> (x :: l)) with (x :: <[i := negb b]> l).
    destruct x; cbn [List.filter length]; lia.
Qed.

(** X20. Toggling an item twice restores the list; one toggle keeps the
    length, leaves every other item as it was, and changes the number of
    checked items by exactly one. *)
Theorem checklist_toggle (l : list bool) (i : nat) (b : bool) :
  l !! i = Some b ->
  toggle i (toggle i l) = l
  /\ length (toggle i l) = length l
  /\ toggle i l !! i = Some (negb b)
  /\ (forall j, j <> i -> toggle i l !! j = l !! j)
  /\ done (toggle i l) + (if b then 1 else 0) = done l + (if b then 0 else 1).
Proof.
  intros H. pose proof (lookup_lt_Some _ _ _ H) as Hlt.
  assert (E : toggle i l = <[i := negb b]> l) by (unfold toggle; now rewrite H).
  assert (Hi : <[i := negb b]> l !! i = Some (negb b))
    by now apply list_lookup_insert_eq.
  repeat apply conj.
  - rewrite E. unfold toggle. rewrite Hi, negb_involutive.
    rewrite list_insert_insert_eq. now apply list_insert_id.
  - rewrite E. apply length_insert.
  - now rewrite E.
  - intros j Hj. rewrite E. now apply list_lookup_insert_ne.
  - rewrite E. now apply done_insert.
Qed.

Lemma checklist_toggle_witness :
  toggle 2 (toggle 2 initial) = initial /\ done (toggle 2 initial) = 1.
Proof.
  destruct (checklist_toggle initial 2 false eq_refl) as (H1 & _ & _ & _ & H5).
  split; [exact H1 | reflexivity].
Defined.

Lemma done_le_length (l : list bool) : done l <= length l.
Proof. unfold done. apply List.filter_length_le. Qed.

Lemma reachable_length (l : list bool) : reachable l -> length l = 4.
Proof.
  induction 1 as [|l i _ IH Hi]; [reflexivity|].
  unfold toggle. destruct (l !! i) as [b|] eqn:E.
  - now rewrite length_insert.
  - apply lookup_ge_None in E. lia.
Qed.

(** X21. The check list always has its four items, so the progress shown is
    a quarter of 100 per checked item and lies between 0 and 100. *)
Theorem checklist_progress (l : list bool) :
  reachable l ->
  length l = 4
  /\ done l <= 4
  /\ (progress l == inject_Z (25 * Z.of_nat (done l)))%Q
  /\ (0 <= progress l <= 100)%Q.
Proof.
  intros Hr. pose proof (reachable_length l Hr) as Hl.
  pose proof (done_le_length l) as Hd. rewrite Hl in Hd.
  assert (Hp : (progress l == inject_Z (25 * Z.of_nat (done l)))%Q).
  { unfold progress. rewrite inject_Z_mult. field. }
  repeat apply conj; try assumption.
  - rewrite Hp. change 0%Q with (inject_Z 0). rewrite <- Zle_Qle. lia.
  - rewrite Hp. change 100%Q with (inject_Z 100). rewrite <- Zle_Qle. lia.
Qed.

Lemma checklist_progress_witness :
  (progress (toggle 1 (toggle 3 initial)) == 50)%Q.
Proof.
  destruct (checklist_progress (toggle 1 (toggle 3 initial))) as (_ & _ & H & _).
  - repeat constructor.
  - rewrite H. reflexivity.
Defined.

End ChecklistFacts.

(** ** The requests to the analysis service *)

Section ApiFacts.

Import JS Dashboard Api Scenarios.

Local Open Scope nat_scope.

Lemma handle_data (st : app) (e : event) :
  a_data (handle st e)
  = match e with Resolved res => Some res | _ => a_data st end.
Proof.
  destruct e as [op | res | op | | s | s]; cbn [handle]; try reflexivity.
  unfold call. now destruct (refused op st).
Qed.

Lemma handle_alerts (st : app) (e : event) :
  a_alerts (handle st e)
  = match e with
    | Rejected op => a_alerts st ++ [failure_notice op]
    | _ => a_alerts st
    end.
Proof.
  destruct e as [op | res | op | | s | s]; cbn [handle]; try reflexivity.
  unfold call. now destruct (refused op st).
Qed.

Lemma last_answer_from_none (events : list event) :
  forall acc, last_answer_from acc events = None -> acc = None.
Proof.
  unfold last_answer_from.
  induction events as [|e events IH]; intros acc H; cbn [fold_left] in H.
  - exact H.
  - apply IH in H. destruct e; cbn [note_answer] in H; congruence.
Qed.

Lemma run_data (events : list event) :
  forall (st : app) (acc : option AnalysisData),
    (forall r, acc = Some r -> a_data st = Some r) ->
    a_data (run events st)
    = default (a_data st) (Some <$> last_answer_from acc events).
Proof.
  unfold run, last_answer_from.
  induction events as [|e events IH]; intros st acc Hacc; cbn [fold_left].
  - destruct acc as [r|]; cbn; [now apply Hacc | reflexivity].
  - rewrite (IH (handle st e) (note_answer acc e)).
    + destruct (fold_left note_answer events (note_answer acc e)) as [r|] eqn:E;
        [reflexivity|].
      apply (last_answer_from_none events) in E.
      cbn [fmap option_fmap option_map default]. rewrite handle_data.
      destruct e; cbn [note_answer] in E; congruence.
    + intros r Hr. rewrite handle_data.
      destruct e; cbn [note_answer] in Hr; try (now apply Hacc).
      exact Hr.
Qed.

(** X22. Whatever the user and the service do, the record held is the payload
    of the last successful answer, or the record held before if there was
    none: a request, a failure, a timer or typing never changes it; and
    every failure shows exactly one notice. *)
Theorem record_changes_only_on_answer (events : list event) (st : app) :
  a_data (run events st) = default (a_data st) (Some <$> last_answer events)
  /\ (last_answer events = None -> a_data (run events st) = a_data st)
  /\ length (a_alerts (run events st))
     = length (a_alerts st) + length (List.filter is_failure events).
Proof.
  assert (H1 : a_data (run events st)
               = default (a_data st) (Some <$> last_answer events)).
  { apply run_data. intros r Hr. discriminate Hr. }
  repeat apply conj.
  - exact H1.
  - intros Hnone. now rewrite H1, Hnone.
  - clear H1. revert st. induction events as [|e events IH]; intros st;
      cbn [run fold_left List.filter]; [cbn; lia|].
    fold (run events (handle st e)). rewrite IH, handle_alerts.
    destruct e; cbn [is_failure length]; try lia.
    rewrite length_app. cbn. lia.
Qed.

Lemma record_changes_only_on_answer_witness :
  let st := {| a_text := str "hello"; a_url := []; a_data := Some scenario_record;
               a_loading := false; a_showResults := true;
               a_alerts := []; a_requests := [] |} in
  a_data (run [Call AnalyzeText; Rejected AnalyzeText; Call AnalyzeUrl] st)
  = Some scenario_record.
Proof.
  cbv zeta.
  destruct (record_changes_only_on_answer
              [Call AnalyzeText; Rejected AnalyzeText; Call AnalyzeUrl]
              {| a_text := str "hello"; a_url := []; a_data := Some scenario_record;
                 a_loading := false; a_showResults := true;
                 a_alerts := []; a_requests := [] |}) as (_ & H & _).
  apply H. reflexivity.
Defined.

(** Only the timer of a successful answer shows the results. *)
Lemma hidden_until_reveal (events : list event) :
  forall st : app,
    forallb (fun e => negb (is_reveal e)) events = true ->
    a_showResults st = false ->
    a_showResults (run events st) = false.
Proof.
  induction events as [|e events IH]; intros st He Hs; [exact Hs|].
  cbn [forallb] in He. apply andb_true_iff in He as [He1 He2].
  apply (IH (handle st e) He2).
  destruct e as [op|res|op| |s|s]; cbn [handle]; try exact Hs.
  - unfold call. destruct (refused op st); [exact Hs | reflexivity].
  - discriminate He1.
Qed.

(** X23. A blank text or URL sends no request and changes nothing.  A
    request that is sent hides the results, and they stay hidden until a
    timer of a successful answer fires: if none fires before the request
    fails, the failure leaves the results hidden and the loading flag
    off, and its own notice is the last one shown. *)
Theorem failed_request_hides_results
    (op : operation) (st : app) (between : list event) :
  (refused op st = true -> call op st = st)
  /\ (refused op st = false ->
      forallb (fun e => negb (is_reveal e)) between = true ->
      let st' := run (Call op :: between ++ [Rejected op]) st in
      a_showResults st' = false
      /\ a_loading st' = false
      /\ a_alerts st'
         = a_alerts (run (Call op :: between) st) ++ [failure_notice op]).
Proof.
  split; intros H.
  - unfold call. now rewrite H.
  - intros Hb st'. unfold st', run. cbn [fold_left].
    rewrite fold_left_app. cbn [fold_left handle].
    fold (run between (handle st (Call op))).
    repeat split. cbn [rejected a_showResults].
    apply hidden_until_reveal; [exact Hb|].
    cbn [handle]. unfold call. now rewrite H.
Qed.

Lemma failed_request_hides_results_witness :
  let st := {| a_text := str "  "; a_url := str "example.org";
               a_data := Some scenario_record;
               a_loading := false; a_showResults := true;
               a_alerts := []; a_requests := [] |} in
  call AnalyzeText st = st
  /\ a_showResults
       (run (Call AnalyzeUrl :: [SetText (str "hello")] ++ [Rejected AnalyzeUrl]) st)
     = false.
Proof.
  cbv zeta.
  destruct (failed_request_hides_results AnalyzeText
              {| a_text := str "  "; a_url := str "example.org";
                 a_data := Some scenario_record;
                 a_loading := false; a_showResults := true;
                 a_alerts := []; a_requests := [] |} []) as (H1 & _).
  destruct (failed_request_hides_results AnalyzeUrl
              {| a_text := str "  "; a_url := str "example.org";
                 a_data := Some scenario_record;
                 a_loading := false; a_showResults := true;
                 a_alerts := []; a_requests := [] |}
              [SetText (str "hello")]) as (_ & H2).
  destruct (H2 eq_refl eq_refl) as (Hs & _).
  split; [apply H1; reflexivity | exact Hs].
Defined.

(** The timer of an earlier answer can fire while the next request is
    pending: the results are then shown again, with the old record, and
    stay shown when that request fails. *)
Example stale_reveal_shows_results :
  let st := {| a_text := str "hello"; a_url := [];
               a_data := None;
               a_loading := false; a_showResults := false;
               a_alerts := []; a_requests := [] |} in
  let st' := run [Call AnalyzeText; Resolved scenario_record;
                  Call AnalyzeText; Reveal; Rejected AnalyzeText] st in
  a_showResults st' = true /\ a_data st' = Some scenario_record.
Proof. split; reflexivity. Qed.

End ApiFacts.

(** ** The metric card *)

Section MetricCardFacts.

Import JS MetricCard.

Lemma waiting_mount (nv : option Q) : waiting (mount nv).
Proof. repeat split. Qed.

Lemma waiting_quiet (c : card) (e : event) :
  quiet e = true -> waiting c -> waiting (handle c e).
Proof.
  intros He (Hv & Ht & Hc & Ha). destruct e as [id|ts|nv| |]; try discriminate He.
  - repeat split; cbn; try assumption. now rewrite Ha.
  - cbn [handle]. unfold setValue.
    destruct (Qeq_bool _ _); repeat split; cbn; try assumption.
    now rewrite Hv, Ha.
Qed.

Lemma waiting_run (events : list event) :
  forall c, forallb quiet events = true -> waiting c -> waiting (run events c).
Proof.
  induction events as [|e events IH]; intros c He Hc; [exact Hc|].
  cbn [forallb] in He. apply andb_true_iff in He as [He1 He2].
  apply (IH (handle c e) He2). now apply waiting_quiet.
Qed.

Lemma run_frames (tss : list Q) :
  forall c,
    visible (run (map Frame tss) c) = visible c
    /\ timeouts (run (map Frame tss) c) = timeouts c
    /\ numericValue (run (map Frame tss) c) = numericValue c
    /\ animation (run (map Frame tss) c)
       = CountUp.run (map CountUp.Frame tss) (animation c).
Proof.
  induction tss as [|ts tss IH]; intros c; [repeat split|].
  destruct (IH (frame ts c)) as (H1 & H2 & H3 & H4).
  repeat split; assumption.
Qed.

(** X24. Until its time-out fires a card stays hidden and its number stays
    0: animation frames and new values start no animation. *)
Theorem card_hidden_until_timer (nv : option Q) (events : list event) :
  forallb quiet events = true ->
  let c := run events (mount nv) in
  visible c = false
  /\ animation c = CountUp.mount duration
  /\ displayVal c = (fun _ => 0) <$> numericValue c.
Proof.
  intros He c.
  destruct (waiting_run events (mount nv) He (waiting_mount nv)) as (Hv & _ & _ & Ha).
  fold c in Hv, Ha. repeat split; [exact Hv | exact Ha |].
  unfold displayVal. now rewrite Ha.
Qed.

Lemma card_hidden_until_timer_witness :
  displayVal (run [Frame 16; Value (Some 80%Q); Frame 32] (mount (Some 50%Q)))
  = Some 0.
Proof.
  destruct (card_hidden_until_timer (Some 50%Q)
              [Frame 16; Value (Some 80%Q); Frame 32] eq_refl) as (_ & _ & H).
  exact H.
Defined.

(** X25. When the time-out fires the card becomes visible and its number
    is from then on the count-up of the hook, started at that moment towards
    the value the card holds ([0] when it has none) and driven by the
    animation frames that follow; what happened before does not matter. *)
Theorem card_counts_up_after_stagger
    (nv : option Q) (before : list event) (after : list Q) :
  forallb quiet before = true ->
  let c0 := run before (mount nv) in
  let c := run (Fire 1 :: map Frame after) c0 in
  visible c = true
  /\ timeouts c = ∅
  /\ animation c
     = CountUp.run (CountUp.Effect (numericValue c0 ?? 0%Q) true
                      :: map CountUp.Frame after)
                   (CountUp.mount duration).
Proof.
  intros He c0 c.
  destruct (waiting_run before (mount nv) He (waiting_mount nv)) as (Hv & Ht & _ & Ha).
  fold c0 in Hv, Ht, Ha.
  unfold c. cbn [run fold_left handle]. fold (run (map Frame after) (fire 1 c0)).
  destruct (run_frames after (fire 1 c0)) as (H1 & H2 & _ & H4).
  rewrite H1, H2, H4. unfold fire. rewrite Ht, Hv.
  rewrite decide_True by (now apply elem_of_singleton).
  cbn [visible timeouts animation countup_effect numericValue]. rewrite Ha.
  repeat split.
Qed.

Lemma card_counts_up_after_stagger_witness :
  displayVal (run [Frame 5; Fire 1; Frame 16; Frame 1116] (mount (Some 50%Q)))
  = Some 50.
Proof.
  destruct (card_counts_up_after_stagger (Some 50%Q) [Frame 5] [16; 1116]%Q
              eq_refl) as (_ & _ & H).
  unfold displayVal. cbn [run fold_left map] in H |- *. rewrite H.
  vm_compute. reflexivity.
Defined.

(** A card without time-out that is hidden and has nothing scheduled. *)
Lemma gone_late (events : list event) :
  forall c,
    forallb late events = true ->
    visible c = false -> timeouts c = ∅ -> CountUp.frames (animation c) = [] ->
    visible (run events c) = false
    /\ timeouts (run events c) = ∅
    /\ CountUp.frames (animation (run events c)) = [].
Proof.
  induction events as [|e events IH]; intros c He Hv Ht Hf; [repeat split; assumption|].
  cbn [forallb] in He. apply andb_true_iff in He as [He1 He2].
  apply (IH (handle c e) He2); destruct e as [id|ts| | |]; try discriminate He1;
    cbn [handle].
  - unfold fire. rewrite Ht. now rewrite decide_False by set_solver.
  - exact Hv.
  - unfold fire. rewrite Ht. now rewrite decide_False by set_solver.
  - exact Ht.
  - unfold fire. rewrite Ht. now rewrite decide_False by set_solver.
  - cbn [frame animation]. unfold CountUp.frame. now rewrite Hf.
Qed.

(** X26. A card that is unmounted before its time-out fired never becomes
    visible and never starts its count-up: the cleanup cleared the
    time-out. *)
Theorem card_unmounted_stays_hidden
    (nv : option Q) (before after : list event) :
  forallb quiet before = true ->
  forallb late after = true ->
  let c := run (before ++ Unmount :: after) (mount nv) in
  visible c = false
  /\ timeouts c = ∅
  /\ CountUp.frames (animation c) = [].
Proof.
  intros Hb Ha c. unfold c, run. rewrite fold_left_app. cbn [fold_left].
  fold (run before (mount nv)).
  destruct (waiting_run before (mount nv) Hb (waiting_mount nv))
    as (Hv & Ht & Hc & Han).
  set (c0 := run before (mount nv)) in *.
  fold (run after (handle c0 Unmount)).
  apply gone_late; [exact Ha | | |]; cbn [handle]; unfold run_cleanup; rewrite Hc;
    cbn [visible timeouts animation].
  - exact Hv.
  - rewrite Ht. apply difference_diag_L.
  - now rewrite Han.
Qed.

Lemma card_unmounted_stays_hidden_witness :
  visible (run [Frame 16; Unmount; Fire 1; Frame 32] (mount (Some 50%Q))) = false.
Proof.
  destruct (card_unmounted_stays_hidden (Some 50%Q) [Frame 16] [Fire 1; Frame 32]
              eq_refl eq_refl) as (H & _).
  exact H.
Defined.

End MetricCardFacts.
